(** * littlebit: secp256k1 primitives (littlebit/ecc/secp256k1.py)

    A shallow embedding of the secp256k1 module: the field element and
    point specialisations, SEC and DER encodings, ECDSA signing and
    verification, and the RFC 6979 nonce derivation.  Python integers are
    [Z], [bytes] values are lists of [Byte.byte], and every function that
    can raise returns a [result]. *)

From Stdlib Require Import ZArith List Bool Lia Znumtheory Zpow_facts.
From Stdlib Require Import Strings.Byte.
From Stdlib Require Import Zmod.
From Stdlib Require Import Floats.SpecFloat.
From Stdlib Require Import NsatzTactic.
From Bignums Require Import BigN.
Import ListNotations.
Open Scope Z_scope.

(** ** Exceptions and the error monad *)

(** The exceptions the module can raise.  [RangeError], [MismatchError],
    [CurveMembershipError], [NotSupportedError] and [FormatError] are the
    kinds named by the specification (section 7); the others are the Python
    built-ins raised by [int.to_bytes], [bytes(...)], indexing and attribute
    access on [None]. *)
Inductive exn : Set :=
| RangeError | MismatchError | CurveMembershipError | NotSupportedError
| FormatError
| OverflowError | ValueError | IndexError | AttributeError.

(** The outcome of a call: a value, a raised exception, or [OutOfFuel]
    when the only unbounded loop of the module (the nonce rejection loop of
    [deterministic_k]) has not finished within the given number of
    iterations. *)
Inductive result (A : Type) : Type :=
| Ok (a : A)
| Raise (e : exn)
| OutOfFuel.
Arguments Ok {A} a.
Arguments Raise {A} e.
Arguments OutOfFuel {A}.

Definition bind {A B : Type} (m : result A) (f : A -> result B) : result B :=
  match m with
  | Ok a => f a
  | Raise e => Raise e
  | OutOfFuel => OutOfFuel
  end.

Notation "x <- m ;; k" := (bind m (fun x => k))
  (at level 61, m at next level, right associativity).

(** ** Bytes *)

Definition bytes := list byte.

Definition Z_of_byte (b : byte) : Z := Z.of_N (Byte.to_N b).

Definition byte_of_Z (z : Z) : byte :=
  match Byte.of_N (Z.to_N z) with
  | Some b => b
  | None => x00
  end.

(** [int.to_bytes(len, "big")] on an integer already known to fit. *)
Fixpoint be_bytes (len : nat) (n : Z) : bytes :=
  match len with
  | O => []
  | S l => be_bytes l (n / 256) ++ [byte_of_Z (n mod 256)]
  end.

(** [n.to_bytes(len, "big")]: negative or too large integers raise
    [OverflowError]. *)
Definition to_bytes (len : nat) (n : Z) : result bytes :=
  if (n <? 0) || (256 ^ Z.of_nat len <=? n) then Raise OverflowError
  else Ok (be_bytes len n).

(** [int.from_bytes(bs, "big")]. *)
Definition from_bytes (bs : bytes) : Z :=
  fold_left (fun acc b => acc * 256 + Z_of_byte b) bs 0.

(** [bs.lstrip(b"\x00")]. *)
Fixpoint lstrip0 (bs : bytes) : bytes :=
  match bs with
  | [] => []
  | b :: tl => if Byte.eqb b x00 then lstrip0 tl else bs
  end.

(** [bytes([v1, ..., vn])]: every value must be in [range(256)]. *)
Fixpoint bytes_of_ints (vs : list Z) : result bytes :=
  match vs with
  | [] => Ok []
  | v :: tl =>
      if (0 <=? v) && (v <? 256)
      then (r <- bytes_of_ints tl ;; Ok (byte_of_Z v :: r))
      else Raise ValueError
  end.

(** [bs[0]]: indexing an empty byte string raises [IndexError]. *)
Definition first_byte (bs : bytes) : result Z :=
  match bs with
  | [] => Raise IndexError
  | b :: _ => Ok (Z_of_byte b)
  end.

Definition len (bs : bytes) : Z := Z.of_nat (length bs).

(** ** SHA-256 and HMAC-SHA256

    [hashlib.sha256] and [hmac.new(key, msg, sha256).digest()] are supplied
    by the Python standard library; they are written out here (FIPS 180-4 and
    RFC 2104) so that the nonce derivation can be evaluated. *)

Module SHA256.

Definition w32 (z : Z) : Z := z mod 2 ^ 32.

Definition rotr (n x : Z) : Z :=
  Z.lor (Z.shiftr x n) (w32 (Z.shiftl x (32 - n))).

Definition ch (e f g : Z) : Z :=
  Z.lxor (Z.land e f) (Z.land (Z.lxor e (2 ^ 32 - 1)) g).

Definition maj (a b c : Z) : Z :=
  Z.lxor (Z.lxor (Z.land a b) (Z.land a c)) (Z.land b c).

Definition big_sigma0 (v : Z) : Z :=
  Z.lxor (Z.lxor (rotr 2 v) (rotr 13 v)) (rotr 22 v).

Definition big_sigma1 (v : Z) : Z :=
  Z.lxor (Z.lxor (rotr 6 v) (rotr 11 v)) (rotr 25 v).

Definition small_sigma0 (v : Z) : Z :=
  Z.lxor (Z.lxor (rotr 7 v) (rotr 18 v)) (Z.shiftr v 3).

Definition small_sigma1 (v : Z) : Z :=
  Z.lxor (Z.lxor (rotr 17 v) (rotr 19 v)) (Z.shiftr v 10).

(** Round constants: the fractional parts of the cube roots of the first
    64 primes. *)
Definition round_constants : list Z :=
 [
  1116352408; 1899447441; 3049323471; 3921009573; 961987163; 1508970993;
  2453635748; 2870763221; 3624381080; 310598401; 607225278; 1426881987;
  1925078388; 2162078206; 2614888103; 3248222580; 3835390401; 4022224774;
  264347078; 604807628; 770255983; 1249150122; 1555081692; 1996064986;
  2554220882; 2821834349; 2952996808; 3210313671; 3336571891; 3584528711;
  113926993; 338241895; 666307205; 773529912; 1294757372; 1396182291;
  1695183700; 1986661051; 2177026350; 2456956037; 2730485921; 2820302411;
  3259730800; 3345764771; 3516065817; 3600352804; 4094571909; 275423344;
  430227734; 506948616; 659060556; 883997877; 958139571; 1322822218;
  1537002063; 1747873779; 1955562222; 2024104815; 2227730452; 2361852424;
  2428436474; 2756734187; 3204031479; 3329325298
 ].

(** Initial hash value: the fractional parts of the square roots of the
    first 8 primes. *)
Definition initial_hash : list Z :=
 [ 1779033703; 3144134277; 1013904242; 2773480762; 1359893119; 2600822924; 528734635; 1541459225 ].

(** The message schedule.  [window] holds the sixteen most recent
    schedule words, newest first. *)
Fixpoint schedule (n : nat) (window : list Z) : list Z :=
  match n with
  | O => []
  | S n' =>
      let wt := w32 (small_sigma1 (nth 1 window 0) + nth 6 window 0
                     + small_sigma0 (nth 14 window 0) + nth 15 window 0) in
      wt :: schedule n' (wt :: firstn 15 window)
  end.

Definition round (st : list Z) (kw : Z * Z) : list Z :=
  match st with
  | [a; b; c; d; e; f; g; h] =>
      let t1 := h + big_sigma1 e + ch e f g + fst kw + snd kw in
      let t2 := big_sigma0 a + maj a b c in
      [w32 (t1 + t2); a; b; c; w32 (d + t1); e; f; g]
  | _ => st
  end.

(** Big-endian 32-bit words of a byte string. *)
Fixpoint words (bs : bytes) : list Z :=
  match bs with
  | b0 :: b1 :: b2 :: b3 :: tl => from_bytes [b0; b1; b2; b3] :: words tl
  | _ => []
  end.

Definition compress (st : list Z) (block : list Z) : list Z :=
  let ws := block ++ schedule 48 (rev block) in
  let st' := fold_left round (combine round_constants ws) st in
  map (fun p => w32 (fst p + snd p)) (combine st st').

Fixpoint blocks (n : nat) (ws : list Z) (st : list Z) : list Z :=
  match n with
  | O => st
  | S n' => blocks n' (skipn 16 ws) (compress st (firstn 16 ws))
  end.

Definition pad (msg : bytes) : bytes :=
  let l := Z.of_nat (length msg) in
  msg ++ [x80] ++ repeat x00 (Z.to_nat ((55 - l) mod 64))
      ++ be_bytes 8 (8 * l).

Definition sha256 (msg : bytes) : bytes :=
  let ws := words (pad msg) in
  let st := blocks (length ws / 16) ws initial_hash in
  flat_map (be_bytes 4) st.

Definition xor_pad (c : Z) (key : bytes) : bytes :=
  map (fun b => byte_of_Z (Z.lxor (Z_of_byte b) c)) key.

(** [hmac.new(key, msg, sha256).digest()] *)
Definition hmac_sha256 (key msg : bytes) : bytes :=
  let key := if (64 <? length key)%nat then sha256 key else key in
  let key := key ++ repeat x00 (64 - length key) in
  sha256 (xor_pad 0x5c key ++ sha256 (xor_pad 0x36 key ++ msg)).

End SHA256.

(** ** Curve constants *)

Definition A : Z := 0.
Definition B : Z := 7.

Definition P : Z := 2 ^ 256 - 2 ^ 32 - 2 ^ 9 - 2 ^ 8 - 2 ^ 7 - 2 ^ 6 - 2 ^ 4 - 1.

Definition N : Z :=
  0xFFFFFFFFFFFFFFFFFFFFFFFFFFFFFFFEBAAEDCE6AF48A03BBFD25E8CD0364141.

(** ** FieldElement *)

Record FieldElement : Set := mkFE { number : Z; prime : Z }.

(** Modelled from the spec: [FieldElement.__init__] (littlebit/ecc/field.py is
    not part of the sources).  Section 4.1: construction fails with a
    RangeError if [number] is outside [[0, prime)]. *)
Definition FieldElement_init (number prime : Z) : result FieldElement :=
  if (number <? 0) || (prime <=? number) then Raise RangeError
  else Ok (mkFE number prime).

(** [S256FieldElement.__init__(self, number, prime=None)]: the [prime]
    argument is dropped and the base constructor is called with [P]. *)
Definition S256FieldElement (number : Z) (prime : option Z)
  : result FieldElement :=
  FieldElement_init number P.

(** Modelled from the spec: the arithmetic of [FieldElement]
    (littlebit/ecc/field.py is not part of the sources).  Section 4.1:
    [add], [sub] and [mul] fail with a MismatchError if the operands have
    different primes, otherwise compute in ordinary integer arithmetic and
    reduce modulo [prime] into [[0, prime)]. *)
Definition same_prime (e1 e2 : FieldElement) : bool :=
  prime e1 =? prime e2.

Definition fe_add (e1 e2 : FieldElement) : result FieldElement :=
  if same_prime e1 e2
  then FieldElement_init ((number e1 + number e2) mod prime e1) (prime e1)
  else Raise MismatchError.

Definition fe_sub (e1 e2 : FieldElement) : result FieldElement :=
  if same_prime e1 e2
  then FieldElement_init ((number e1 - number e2) mod prime e1) (prime e1)
  else Raise MismatchError.

Definition fe_mul (e1 e2 : FieldElement) : result FieldElement :=
  if same_prime e1 e2
  then FieldElement_init ((number e1 * number e2) mod prime e1) (prime e1)
  else Raise MismatchError.

(** Modelled from the spec: the product of a [FieldElement] with an integer
    coefficient, as used by the slope [(3x^2 + a) / (2y)] of section 4.2. *)
Definition fe_rmul (coefficient : Z) (e : FieldElement)
  : result FieldElement :=
  FieldElement_init ((number e * coefficient) mod prime e) (prime e).

(** The built-in [pow(base, exponent, modulus)] for a non-negative
    exponent. *)
Definition pow3 (base exponent modulus : Z) : Z :=
  Zpow_mod base exponent modulus.

(** Modelled from the spec: [FieldElement.__pow__].  Section 4.1: the
    exponent is normalised by [e mod (prime - 1)] and the power is then
    computed by modular exponentiation. *)
Definition fe_pow (e : FieldElement) (exponent : Z) : result FieldElement :=
  let n := exponent mod (prime e - 1) in
  FieldElement_init (pow3 (number e) n (prime e)) (prime e).

(** Modelled from the spec: [FieldElement.__truediv__].  Section 4.1:
    [div(other)] is [self * other^(prime-2)] and fails with a MismatchError
    on differing primes. *)
Definition fe_div (e1 e2 : FieldElement) : result FieldElement :=
  if same_prime e1 e2
  then FieldElement_init
         ((number e1 * pow3 (number e2) (prime e1 - 2) (prime e1))
            mod prime e1) (prime e1)
  else Raise MismatchError.

(** Modelled from the spec: equality of field elements is structural. *)
Definition fe_eqb (e1 e2 : FieldElement) : bool :=
  (number e1 =? number e2) && (prime e1 =? prime e2).

(** [S256FieldElement.sqrt]: [self ** ((self.prime + 1) // 4)]. *)
Definition sqrt (self : FieldElement) : result FieldElement :=
  fe_pow self ((prime self + 1) / 4).

(** ** Point *)

(** [x = y = None] is the point at infinity. *)
Record Point : Set := mkPoint {
  x : option FieldElement;
  y : option FieldElement;
  a : FieldElement;
  b : FieldElement
}.

(** Modelled from the spec: [y^2 == x^3 + a*x + b] in the shared field. *)
Definition on_curve (xv yv av bv : FieldElement) : result bool :=
  lhs <- fe_pow yv 2 ;;
  x3 <- fe_pow xv 3 ;;
  ax <- fe_mul av xv ;;
  t <- fe_add x3 ax ;;
  rhs <- fe_add t bv ;;
  Ok (fe_eqb lhs rhs).

(** Modelled from the spec: [Point.__init__] (littlebit/ecc/point.py is not
    part of the sources).  Section 4.2: if both coordinates are present the
    curve equation is verified and construction fails with a
    CurveMembershipError otherwise; the point at infinity is always valid.
    Section 3 admits no other point, so a point with exactly one coordinate
    is refused as well. *)
Definition Point_init (xv yv : option FieldElement) (av bv : FieldElement)
  : result Point :=
  match xv, yv with
  | None, None => Ok (mkPoint None None av bv)
  | Some xe, Some ye =>
      ok <- on_curve xe ye av bv ;;
      if ok then Ok (mkPoint xv yv av bv) else Raise CurveMembershipError
  | _, _ => Raise CurveMembershipError
  end.

Definition opt_fe_eqb (o1 o2 : option FieldElement) : bool :=
  match o1, o2 with
  | None, None => true
  | Some e1, Some e2 => fe_eqb e1 e2
  | _, _ => false
  end.

(** Modelled from the spec: equality of points is structural. *)
Definition point_eqb (p q : Point) : bool :=
  opt_fe_eqb (x p) (x q) && opt_fe_eqb (y p) (y q)
  && fe_eqb (a p) (a q) && fe_eqb (b p) (b q).

(** Modelled from the spec: [Point.__add__], section 4.2, cases 1 to 5 in
    the order they are listed. *)
Definition Point_add (p q : Point) : result Point :=
  if negb (fe_eqb (a p) (a q) && fe_eqb (b p) (b q)) then Raise MismatchError
  else
    match x p, y p, x q, y q with
    | None, _, _, _ => Ok q
    | _, _, None, _ => Ok p
    | Some x1, Some y1, Some x2, Some y2 =>
        if fe_eqb x1 x2 && negb (fe_eqb y1 y2) then
          Point_init None None (a p) (b p)
        else if point_eqb p q && (number y1 =? 0) then
          Point_init None None (a p) (b p)
        else if point_eqb p q then
          xx <- fe_pow x1 2 ;;
          n3 <- fe_rmul 3 xx ;;
          num <- fe_add n3 (a p) ;;
          den <- fe_rmul 2 y1 ;;
          m <- fe_div num den ;;
          mm <- fe_pow m 2 ;;
          x2' <- fe_rmul 2 x1 ;;
          x3 <- fe_sub mm x2' ;;
          dx <- fe_sub x1 x3 ;;
          mdx <- fe_mul m dx ;;
          y3 <- fe_sub mdx y1 ;;
          Point_init (Some x3) (Some y3) (a p) (b p)
        else
          dy <- fe_sub y2 y1 ;;
          dx <- fe_sub x2 x1 ;;
          m <- fe_div dy dx ;;
          mm <- fe_pow m 2 ;;
          t <- fe_sub mm x1 ;;
          x3 <- fe_sub t x2 ;;
          dx3 <- fe_sub x1 x3 ;;
          mdx <- fe_mul m dx3 ;;
          y3 <- fe_sub mdx y1 ;;
          Point_init (Some x3) (Some y3) (a p) (b p)
    | _, _, _, _ => Raise CurveMembershipError
    end.

(** Modelled from the spec: the double-and-add loop of [Point.__rmul__],
    section 4.2.  The bits of the coefficient are consumed from the least
    significant one; every iteration conditionally adds the running point
    to the result and doubles the running point. *)
Fixpoint rmul_loop (coef : positive) (current acc : Point) : result Point :=
  match coef with
  | xH =>
      acc' <- Point_add acc current ;;
      _ <- Point_add current current ;;
      Ok acc'
  | xO coef' =>
      current' <- Point_add current current ;;
      rmul_loop coef' current' acc
  | xI coef' =>
      acc' <- Point_add acc current ;;
      current' <- Point_add current current ;;
      rmul_loop coef' current' acc'
  end.

(** Modelled from the spec: [Point.__rmul__] for a non-negative
    coefficient; the result starts at infinity, so coefficient 0 returns
    infinity. *)
Definition Point_rmul (coefficient : BinNums.N) (self : Point) : result Point :=
  acc <- Point_init None None (a self) (b self) ;;
  match coefficient with
  | N0 => Ok acc
  | Npos coef => rmul_loop coef self acc
  end.

(** ** Signature *)

Record Signature : Set := mkSignature { r : Z; s : Z }.

(** One integer of the DER encoding: 32 big-endian bytes, leading zero
    bytes stripped, a zero byte put in front when the high bit of the first
    byte is set.  This is the block repeated for [r] and [s] in
    [Signature.der]. *)
Definition der_int (v : Z) : result bytes :=
  vbytes <- to_bytes 32 v ;;
  let vbin := lstrip0 vbytes in
  b0 <- first_byte vbin ;;
  Ok (if negb (Z.land b0 0x80 =? 0) then x00 :: vbin else vbin).

Definition PREFIX : Z := 0x30.
Definition MARKER : Z := 0x02.

(** [Signature.der] *)
Definition der (self : Signature) : result bytes :=
  rbin <- der_int (r self) ;;
  hd1 <- bytes_of_ints [MARKER; len rbin] ;;
  let result := hd1 ++ rbin in
  sbin <- der_int (s self) ;;
  hd2 <- bytes_of_ints [MARKER; len sbin] ;;
  let result := result ++ hd2 ++ sbin in
  hd0 <- bytes_of_ints [PREFIX; len result] ;;
  Ok (hd0 ++ result).

(** ** S256Point *)

(** A coordinate argument of [S256Point(x, y)]: a Python [int], a field
    element, or [None]. *)
Inductive coord : Set :=
| CInt (z : Z)
| CField (e : FieldElement)
| CNone.

Definition coord_field (c : coord) : result (option FieldElement) :=
  match c with
  | CField e => Ok (Some e)
  | CNone => Ok None
  | CInt _ => Raise NotSupportedError
  end.

(** [S256Point.__init__(self, x, y, a=None, b=None)].  The module only
    calls it with two integers, two field elements or two [None]; a lone
    integer is not a coordinate the base class accepts. *)
Definition S256Point (xc yc : coord) : result Point :=
  av <- S256FieldElement A None ;;
  bv <- S256FieldElement B None ;;
  match xc, yc with
  | CInt xi, CInt yi =>
      xe <- S256FieldElement xi None ;;
      ye <- S256FieldElement yi None ;;
      Point_init (Some xe) (Some ye) av bv
  | _, _ =>
      xo <- coord_field xc ;;
      yo <- coord_field yc ;;
      Point_init xo yo av bv
  end.

(** [S256Point.__rmul__]: the coefficient is reduced modulo [N]. *)
Definition S256Point_rmul (coefficient : Z) (self : Point) : result Point :=
  Point_rmul (Z.to_N (coefficient mod N)) self.

Definition Gx : Z :=
  0x79BE667EF9DCBBAC55A06295CE870B07029BFCDB2DCE28D959F2815B16F81798.
Definition Gy : Z :=
  0x483ADA7726A3C4655DA4FBFC0E1108A8FD17B448A68554199C47D08FFB10D4B8.

(** The generator point, the value of [S256Point(x=Gx, y=Gy)]. *)
Definition G : Point :=
  mkPoint (Some (mkFE Gx P)) (Some (mkFE Gy P)) (mkFE A P) (mkFE B P).

(** The finite point with integer coordinates [xi], [yi]. *)
Definition S256_point_of (xi yi : Z) : Point :=
  mkPoint (Some (mkFE xi P)) (Some (mkFE yi P)) (mkFE A P) (mkFE B P).

(** The opposite of the generator, [(Gx, P - Gy)]. *)
Definition neg_G : Point :=
  mkPoint (Some (mkFE Gx P)) (Some (mkFE (P - Gy) P)) (mkFE A P) (mkFE B P).

(** [total.x.number]: attribute access on [None] raises. *)
Definition x_number (p : Point) : result Z :=
  match x p with
  | Some e => Ok (number e)
  | None => Raise AttributeError
  end.

Definition y_number (p : Point) : result Z :=
  match y p with
  | Some e => Ok (number e)
  | None => Raise AttributeError
  end.

(** [S256Point.verify] *)
Definition verify (self : Point) (z : Z) (signature : Signature)
  : result bool :=
  let s_inv := pow3 (s signature) (N - 2) N in
  let u := (z * s_inv) mod N in
  let v := (r signature * s_inv) mod N in
  uG <- S256Point_rmul u G ;;
  vP <- S256Point_rmul v self ;;
  total <- Point_add uG vP ;;
  tx <- x_number total ;;
  Ok (tx =? r signature).

(** [S256Point.sec] *)
Definition sec (self : Point) (compressed : bool) : result bytes :=
  if compressed then
    yn <- y_number self ;;
    xn <- x_number self ;;
    xb <- to_bytes 32 xn ;;
    if yn mod 2 =? 0 then Ok (x02 :: xb) else Ok (x03 :: xb)
  else
    xn <- x_number self ;;
    xb <- to_bytes 32 xn ;;
    yn <- y_number self ;;
    yb <- to_bytes 32 yn ;;
    Ok (x04 :: xb ++ yb).

(** The slice [bs[i:j]]. *)
Definition slice (i j : nat) (bs : bytes) : bytes :=
  firstn (j - i) (skipn i bs).

(** [S256Point.parse] *)
Definition parse (sec_bin : bytes) : result Point :=
  b0 <- first_byte sec_bin ;;
  if b0 =? 4 then
    S256Point (CInt (from_bytes (slice 1 33 sec_bin)))
              (CInt (from_bytes (slice 33 65 sec_bin)))
  else
    let is_y_expected_to_be_even := b0 =? 2 in
    xe <- S256FieldElement (from_bytes (skipn 1 sec_bin)) None ;;
    x3 <- fe_pow xe 3 ;;
    b7 <- S256FieldElement B None ;;
    alpha <- fe_add x3 b7 ;;
    ye <- sqrt alpha ;;
    if is_y_expected_to_be_even then
      if number ye mod 2 =? 0 then S256Point (CField xe) (CField ye)
      else
        ye' <- S256FieldElement (P - number ye) None ;;
        S256Point (CField xe) (CField ye')
    else
      if number ye mod 2 =? 0 then
        ye' <- S256FieldElement (P - number ye) None ;;
        S256Point (CField xe) (CField ye')
      else S256Point (CField xe) (CField ye).

(** ** PrivateKey *)

Record PrivateKey : Set := mkPrivateKey { secret : Z; point : Point }.

(** The dataclass constructor with its [__post_init__]:
    [self.point = self.secret * G]. *)
Definition PrivateKey_init (secret : Z) : result PrivateKey :=
  pt <- S256Point_rmul secret G ;;
  Ok (mkPrivateKey secret pt).

(** The rejection loop at the end of [deterministic_k]. *)
Fixpoint nonce_loop (fuel : nat) (k v : bytes) : result Z :=
  match fuel with
  | O => OutOfFuel
  | S fuel' =>
      let v := SHA256.hmac_sha256 k v in
      let candidate := from_bytes v in
      if (1 <=? candidate) && (candidate <? N) then Ok candidate
      else
        let k := SHA256.hmac_sha256 k (v ++ [x00]) in
        let v := SHA256.hmac_sha256 k v in
        nonce_loop fuel' k v
  end.

(** The value of [z] after [if z > N: z -= N]. *)
Definition reduce_once (z : Z) : Z := if z >? N then z - N else z.

(** The two seeding rounds and the rejection loop, from the 32-byte
    encodings of the secret and of the reduced hash. *)
Definition nonce_rounds (fuel : nat) (secret_bytes z_bytes : bytes)
  : result Z :=
  let k := repeat x00 32 in
  let v := repeat x01 32 in
  let k := SHA256.hmac_sha256 k (v ++ [x00] ++ secret_bytes ++ z_bytes) in
  let v := SHA256.hmac_sha256 k v in
  let k := SHA256.hmac_sha256 k (v ++ [x01] ++ secret_bytes ++ z_bytes) in
  let v := SHA256.hmac_sha256 k v in
  nonce_loop fuel k v.

(** [PrivateKey.deterministic_k] *)
Definition deterministic_k (fuel : nat) (self : PrivateKey) (z : Z)
  : result Z :=
  let z := reduce_once z in
  z_bytes <- to_bytes 32 z ;;
  secret_bytes <- to_bytes 32 (secret self) ;;
  nonce_rounds fuel secret_bytes z_bytes.

(** ** True division and mixed comparison

    [N / 2] is Python's true division of two integers: the quotient
    correctly rounded (to nearest, ties to even) to an IEEE 754 binary64
    value.  [s > N / 2] then compares the integer with the exact value of
    that float. *)
Definition prec : Z := 53.
Definition emax : Z := 1024.

(** Both operands are positive at the only call, [N / 2]. *)
Definition int_truediv (n d : Z) : spec_float :=
  match n, d with
  | Zpos _, Zpos _ =>
      let '(q, e, l) := SFdiv_core_binary prec emax n 0 d 0 in
      binary_round_aux prec emax false q e l
  | _, _ => S754_nan
  end.

Definition int_gt_float (i : Z) (f : spec_float) : bool :=
  match f with
  | S754_zero _ => i >? 0
  | S754_infinity sgn => sgn
  | S754_nan => false
  | S754_finite sgn m e =>
      let mz := if sgn then Z.neg m else Z.pos m in
      if 0 <=? e then i >? mz * 2 ^ e else i * 2 ^ (- e) >? mz
  end.

(** The low-s step of [sign]: [if s > N / 2: s = N - s]. *)
Definition low_s (sv : Z) : Z :=
  if int_gt_float sv (int_truediv N 2) then N - sv else sv.

(** [PrivateKey.sign] *)
Definition sign (fuel : nat) (self : PrivateKey) (z : Z) : result Signature :=
  k <- deterministic_k fuel self z ;;
  R <- S256Point_rmul k G ;;
  rv <- x_number R ;;
  let k_inv := pow3 k (N - 2) N in
  let sv := ((z + rv * secret self) * k_inv) mod N in
  Ok (mkSignature rv (low_s sv)).

(** ** Primality certificates

    The square root of [S256FieldElement] and the inverses [pow(x, N - 2, N)]
    of [sign] and [verify] rest on Fermat's little theorem, that is on [P]
    and [N] being prime.  Both facts are established by Pocklington
    certificates: for [n] with a factored part [F] of [n - 1] such that
    [n < (F + 1)^2], a base [a] with [a^(n-1) = 1 (mod n)] and
    [gcd(a^((n-1)/q) - 1, n) = 1] for every prime [q] of [F].  The modular
    powers of the checker run on machine-word integers. *)

(** Square-and-multiply on [bigN], the same recursion as [Zpow_mod_pos]. *)
Fixpoint bpow_pos (a : bigN) (e : positive) (n : bigN) : bigN :=
  match e with
  | xH => BigN.modulo a n
  | xO e' => let z := bpow_pos a e' n in BigN.modulo (BigN.mul z z) n
  | xI e' => let z := bpow_pos a e' n in
             BigN.modulo (BigN.mul (BigN.mul z z) a) n
  end.

Definition fast_pow_mod (a e n : Z) : Z :=
  match e with
  | Zpos p =>
      BigN.to_Z (bpow_pos (BigN.of_N (Z.to_N a)) p (BigN.of_N (Z.to_N n)))
  | _ => Zpow_mod a e n
  end.

(** A certificate for [pk_n]: the base [pk_a] and the prime powers
    [(q, e)] whose product is the factored part of [pk_n - 1]. *)
Record pock_cert : Set := mkPock {
  pk_n : Z;
  pk_a : Z;
  pk_factors : list (Z * Z)
}.

Definition pock_F (fs : list (Z * Z)) : Z :=
  fold_right (fun qe acc => fst qe ^ snd qe * acc) 1 fs.

Fixpoint pock_coprime (fs : list (Z * Z)) : bool :=
  match fs with
  | [] => true
  | (q, e) :: tl => (Z.gcd (q ^ e) (pock_F tl) =? 1) && pock_coprime tl
  end.

Definition pock_check (known : list Z) (c : pock_cert) : bool :=
  let n := pk_n c in
  let a := pk_a c in
  let F := pock_F (pk_factors c) in
  (1 <? n) && (0 <=? a)
  && ((n - 1) mod F =? 0) && (0 <? F) && (n <? (F + 1) * (F + 1))
  && (fast_pow_mod a (n - 1) n =? 1)
  && pock_coprime (pk_factors c)
  && forallb (fun qe =>
                existsb (Z.eqb (fst qe)) known
                && (Z.gcd (fast_pow_mod a ((n - 1) / fst qe) n - 1) n =? 1))
             (pk_factors c).

(** Checks the certificates in order; the modulus of every accepted one
    joins the primes the later ones may use. *)
Fixpoint pock_chain (known : list Z) (cs : list pock_cert) : list Z :=
  match cs with
  | [] => known
  | c :: tl =>
      if pock_check known c then pock_chain (pk_n c :: known) tl
      else pock_chain known tl
  end.

(** Certificates for [P], [N] and the primes their chains go through. *)
Definition secp256k1_certs : list pock_cert :=
  [ mkPock 3 2
      [(2, 1)];
    mkPock 13 2
      [(3, 1)];
    mkPock 53 2
      [(13, 1)];
    mkPock 7 2
      [(3, 1)];
    mkPock 29 2
      [(7, 1)];
    mkPock 107590001 2
      [(53, 1); (29, 1); (7, 1)];
    mkPock 19 2
      [(3, 2)];
    mkPock 5 2
      [(2, 2)];
    mkPock 11 2
      [(5, 1)];
    mkPock 419 2
      [(19, 1); (11, 1)];
    mkPock 20113 2
      [(419, 1)];
    mkPock 1206781 2
      [(20113, 1)];
    mkPock 7240687 2
      [(1206781, 1)];
    mkPock 17 3
      [(2, 4)];
    mkPock 239 2
      [(17, 1)];
    mkPock 101 2
      [(5, 2)];
    mkPock 96557 2
      [(239, 1); (101, 1)];
    mkPock 255515944373312847190720520512484175977 2
      [(107590001, 1); (7240687, 1); (96557, 1)];
    mkPock 205115282021455665897114700593932402728804164701536103180137503955397371 2
      [(255515944373312847190720520512484175977, 1)];
    mkPock 115792089237316195423570985008687907853269984665640564039457584007908834671663 2
      [(205115282021455665897114700593932402728804164701536103180137503955397371, 1)];
    mkPock 1871 2
      [(17, 1); (11, 1)];
    mkPock 1627771 2
      [(1871, 1)];
    mkPock 297159362677 2
      [(1627771, 1)];
    mkPock 1409 3
      [(11, 1); (2, 7)];
    mkPock 28181 2
      [(1409, 1)];
    mkPock 545358713 2
      [(28181, 1)];
    mkPock 29047611873442575647497758179 2
      [(297159362677, 1); (545358713, 1)];
    mkPock 341948486974166000522343609283189 2
      [(29047611873442575647497758179, 1)];
    mkPock 41 6
      [(5, 1); (2, 3)];
    mkPock 9349 2
      [(41, 1); (19, 1)];
    mkPock 44706919 2
      [(9349, 1)];
    mkPock 113 3
      [(7, 1); (2, 4)];
    mkPock 120233 2
      [(113, 1); (19, 1)];
    mkPock 174723607534414371449 2
      [(44706919, 1); (120233, 1)];
    mkPock 115792089237316195423570985008687907852837564279074904382605163141518161494337 2
      [(341948486974166000522343609283189, 1); (174723607534414371449, 1)] ].

(** ** The curve group

    The addition rule of section 4.2 on the curve [y^2 = x^3 + cb], over any
    field [F] with an inverse [finv] and a decidable equality.  [None] is
    the point at infinity.  The addition and the scalar multiples computed
    by [Point.__add__] and [Point.__rmul__] are related to these in the
    properties below, where the group law is established once for all
    points. *)
Section CurveOps.
Import Stdlib.setoid_ring.Algebra_syntax Stdlib.setoid_ring.Ncring.
Import Stdlib.setoid_ring.Cring Stdlib.setoid_ring.Integral_domain.
Local Close Scope Z_scope.
Context {F : Type} `{Fops : Ring_ops F (ring_eq := @eq F)}.
Variable finv : F -> F.
Variable Feq_dec : forall u v : F, {u = v} + {u <> v}.
Variable cb : F.

Definition affine : Type := option (F * F).

Definition affine_on_curve (p : affine) : Prop :=
  match p with
  | None => True
  | Some (x1, y1) => y1 * y1 = x1 * x1 * x1 + cb
  end.

Definition affine_add (p q : affine) : affine :=
  match p, q with
  | None, _ => q
  | _, None => p
  | Some (x1, y1), Some (x2, y2) =>
      if Feq_dec x1 x2 then
        if Feq_dec y1 y2 then
          if Feq_dec y1 0 then None
          else
            let m := (1 + 1 + 1) * (x1 * x1) * finv ((1 + 1) * y1) in
            let x3 := m * m - (1 + 1) * x1 in
            Some (x3, m * (x1 - x3) - y1)
        else None
      else
        let m := (y2 - y1) * finv (x2 - x1) in
        let x3 := m * m - x1 - x2 in
        Some (x3, m * (x1 - x3) - y1)
  end.

(** [n] times [p], by repeated addition. *)
Fixpoint affine_mul (n : nat) (p : affine) : affine :=
  match n with
  | O => None
  | S n' => affine_add p (affine_mul n' p)
  end.

(** The three ways two finite points of the curve add up: opposite points,
    a doubling along the tangent, and the chord through distinct
    abscissas.  Slopes and inverses are named so that each case is a set of
    polynomial equations. *)
Inductive affine_add_case (x1 y1 x2 y2 : F) : affine -> Prop :=
| case_opposite :
    x2 = x1 -> y2 = - y1 -> affine_add_case x1 y1 x2 y2 None
| case_tangent (i m x3 y3 : F) :
    x2 = x1 -> y2 = y1 -> (1 + 1) * y1 * i = 1 ->
    m = (1 + 1 + 1) * (x1 * x1) * i ->
    x3 = m * m - (1 + 1) * x1 ->
    y3 = m * (x1 - x3) - y1 ->
    y3 * y3 = x3 * x3 * x3 + cb ->
    affine_add_case x1 y1 x2 y2 (Some (x3, y3))
| case_chord (i m x3 y3 : F) :
    (x2 - x1) * i = 1 ->
    m = (y2 - y1) * i ->
    x3 = m * m - x1 - x2 ->
    y3 = m * (x1 - x3) - y1 ->
    y3 * y3 = x3 * x3 * x3 + cb ->
    affine_add_case x1 y1 x2 y2 (Some (x3, y3)).

End CurveOps.

(** ** The curve over the integers modulo [P]

    The points of secp256k1 as pairs of residues, and the [Point] value each
    one stands for. *)

Definition Fp_eq_dec (u v : Zmod P) : {u = v} + {u <> v} :=
  match Z.eq_dec (Zmod.to_Z u) (Zmod.to_Z v) with
  | left e => left (Zmod.unsigned_inj P u v e)
  | right ne => right (fun e => ne (f_equal Zmod.to_Z e))
  end.

Definition secp_point : Type := @affine (Zmod P).

Definition secp_on_curve (p : secp_point) : Prop :=
  affine_on_curve (Zmod.of_Z P B) p.

Definition secp_add (p q : secp_point) : secp_point :=
  affine_add Zmod.inv Fp_eq_dec p q.

Definition secp_mul (n : nat) (p : secp_point) : secp_point :=
  affine_mul Zmod.inv Fp_eq_dec n p.

(** The point at infinity of [S256Point]. *)
Definition infinity : Point :=
  mkPoint None None (mkFE A P) (mkFE B P).

Definition of_affine (p : secp_point) : Point :=
  match p with
  | None => infinity
  | Some (u, v) => S256_point_of (Zmod.to_Z u) (Zmod.to_Z v)
  end.

Definition G_affine : secp_point :=
  Some (Zmod.of_Z P Gx, Zmod.of_Z P Gy).

(** ** The group law on machine-word integers

    The addition and the scalar multiples of the curve computed on [bigN]
    residues, with the inverse taken as the power [P - 2].  They evaluate
    fast enough to establish that [N * G] is the point at infinity. *)

Definition bP : bigN := BigN.of_N (Z.to_N P).

Definition bsub (u v : bigN) : bigN :=
  BigN.modulo (BigN.sub (BigN.add u bP) v) bP.

Definition bmulm (u v : bigN) : bigN := BigN.modulo (BigN.mul u v) bP.

Definition binv (u : bigN) : bigN := bpow_pos u (Z.to_pos (P - 2)) bP.

Definition bpoint : Type := option (bigN * bigN).

Definition bpoint_add (p q : bpoint) : bpoint :=
  match p, q with
  | None, _ => q
  | _, None => p
  | Some (x1, y1), Some (x2, y2) =>
      if BigN.eqb x1 x2 then
        if BigN.eqb y1 y2 then
          if BigN.eqb y1 BigN.zero then None
          else
            let m := bmulm (bmulm (BigN.of_N 3) (bmulm x1 x1))
                           (binv (bmulm (BigN.of_N 2) y1)) in
            let x3 := bsub (bmulm m m) (bmulm (BigN.of_N 2) x1) in
            Some (x3, bsub (bmulm m (bsub x1 x3)) y1)
        else None
      else
        let m := bmulm (bsub y2 y1) (binv (bsub x2 x1)) in
        let x3 := bsub (bsub (bmulm m m) x1) x2 in
        Some (x3, bsub (bmulm m (bsub x1 x3)) y1)
  end.

Fixpoint bpoint_mul (n : positive) (p : bpoint) : bpoint :=
  match n with
  | xH => p
  | xO n' => let h := bpoint_mul n' p in bpoint_add h h
  | xI n' => let h := bpoint_mul n' p in bpoint_add p (bpoint_add h h)
  end.

Definition bG : bpoint :=
  Some (BigN.of_N (Z.to_N Gx), BigN.of_N (Z.to_N Gy)).

Definition to_Fp (u : bigN) : Zmod P := Zmod.of_Z P (BigN.to_Z u).

Definition to_secp (p : bpoint) : secp_point :=
  match p with
  | None => None
  | Some (u, v) => Some (to_Fp u, to_Fp v)
  end.

(** The residues of a point are reduced. *)
Definition bpoint_reduced (p : bpoint) : Prop :=
  match p with
  | None => True
  | Some (u, v) => BigN.to_Z u < P /\ BigN.to_Z v < P
  end.

(** * Properties *)

(** ** The error monad and bytes *)

Lemma bind_Ok {A B} (m : result A) (f : A -> result B) b :
  bind m f = Ok b -> exists a, m = Ok a /\ f a = Ok b.
Proof. destruct m; simpl; [eauto | discriminate | discriminate]. Qed.

Lemma Z_of_byte_range b : 0 <= Z_of_byte b < 256.
Proof.
  unfold Z_of_byte. pose proof (Byte.to_N_bounded b). lia.
Qed.

Lemma byte_of_Z_of_byte b : byte_of_Z (Z_of_byte b) = b.
Proof.
  unfold byte_of_Z, Z_of_byte. rewrite N2Z.id, Byte.of_to_N. reflexivity.
Qed.

Lemma Z_of_byte_of_Z z : 0 <= z < 256 -> Z_of_byte (byte_of_Z z) = z.
Proof.
  intros Hz. unfold byte_of_Z, Z_of_byte.
  destruct (Byte.of_N (Z.to_N z)) as [b|] eqn:E.
  - apply Byte.to_of_N in E. rewrite E. lia.
  - apply Byte.of_N_None_iff in E. lia.
Qed.

Lemma be_bytes_length n z : length (be_bytes n z) = n.
Proof.
  revert z. induction n as [|n IH]; intros z; simpl; [reflexivity|].
  rewrite length_app, IH. simpl. lia.
Qed.

Lemma from_bytes_app bs b :
  from_bytes (bs ++ [b]) = from_bytes bs * 256 + Z_of_byte b.
Proof. unfold from_bytes. rewrite fold_left_app. reflexivity. Qed.

Lemma from_bytes_acc bs acc :
  fold_left (fun acc b => acc * 256 + Z_of_byte b) bs acc
  = acc * 256 ^ Z.of_nat (length bs) + from_bytes bs.
Proof.
  unfold from_bytes. revert acc.
  induction bs as [|b tl IH]; intros acc.
  - simpl. lia.
  - cbn [fold_left length]. rewrite IH, (IH (0 * 256 + Z_of_byte b)).
    rewrite Nat2Z.inj_succ, Z.pow_succ_r by lia. ring.
Qed.

Lemma from_bytes_cons b tl :
  from_bytes (b :: tl)
  = Z_of_byte b * 256 ^ Z.of_nat (length tl) + from_bytes tl.
Proof.
  unfold from_bytes at 1. cbn [fold_left]. rewrite from_bytes_acc.
  f_equal.
Qed.

Lemma from_bytes_range bs :
  0 <= from_bytes bs < 256 ^ Z.of_nat (length bs).
Proof.
  induction bs as [|b tl IH] using rev_ind.
  - simpl. unfold from_bytes. simpl. lia.
  - rewrite from_bytes_app, length_app. cbn [length].
    replace (Z.of_nat (length tl + 1)) with (Z.succ (Z.of_nat (length tl)))
      by lia.
    rewrite Z.pow_succ_r by lia.
    pose proof (Z_of_byte_range b). lia.
Qed.

(** [int.from_bytes] undoes [int.to_bytes]. *)
Lemma from_bytes_be_bytes n z :
  from_bytes (be_bytes n z) = z mod 256 ^ Z.of_nat n.
Proof.
  revert z. induction n as [|n IH]; intros z.
  - simpl. rewrite Z.mod_1_r. reflexivity.
  - cbn [be_bytes]. rewrite from_bytes_app, IH.
    rewrite Z_of_byte_of_Z by (apply Z.mod_pos_bound; lia).
    rewrite Nat2Z.inj_succ, Z.pow_succ_r by lia.
    assert (0 < 256 ^ Z.of_nat n) by (apply Z.pow_pos_nonneg; lia).
    rewrite Z.rem_mul_r by lia. lia.
Qed.

Lemma be_bytes_from_bytes bs :
  be_bytes (length bs) (from_bytes bs) = bs.
Proof.
  induction bs as [|b tl IH] using rev_ind; [reflexivity|].
  rewrite length_app. cbn [length]. rewrite Nat.add_1_r. cbn [be_bytes].
  rewrite from_bytes_app. pose proof (Z_of_byte_range b).
  replace ((from_bytes tl * 256 + Z_of_byte b) / 256) with (from_bytes tl)
    by (apply Z.div_unique with (r := Z_of_byte b); lia).
  replace ((from_bytes tl * 256 + Z_of_byte b) mod 256) with (Z_of_byte b)
    by (apply Z.mod_unique with (q := from_bytes tl); lia).
  rewrite IH, byte_of_Z_of_byte. reflexivity.
Qed.

Lemma to_bytes_Ok n z :
  0 <= z < 256 ^ Z.of_nat n -> to_bytes n z = Ok (be_bytes n z).
Proof.
  intros Hz. unfold to_bytes.
  destruct (z <? 0) eqn:E1; [lia|].
  destruct (256 ^ Z.of_nat n <=? z) eqn:E2; [lia|]. reflexivity.
Qed.

Lemma to_bytes_overflow n z :
  z < 0 \/ 256 ^ Z.of_nat n <= z -> to_bytes n z = Raise OverflowError.
Proof.
  intros Hz. unfold to_bytes.
  destruct (z <? 0) eqn:E1; [reflexivity|].
  destruct (256 ^ Z.of_nat n <=? z) eqn:E2; [reflexivity|]. lia.
Qed.

Lemma byte_eqb_x00 b : Byte.eqb b x00 = (Z_of_byte b =? 0).
Proof.
  destruct (Byte.eqb b x00) eqn:E.
  - apply Byte.byte_dec_bl in E. subst b. reflexivity.
  - symmetry. apply Z.eqb_neq. intros H.
    assert (b = x00) as ->.
    { rewrite <- (byte_of_Z_of_byte b), H. reflexivity. }
    discriminate E.
Qed.

Lemma from_bytes_lstrip0 bs : from_bytes (lstrip0 bs) = from_bytes bs.
Proof.
  induction bs as [|b tl IH]; [reflexivity|].
  cbn [lstrip0]. rewrite byte_eqb_x00.
  destruct (Z_of_byte b =? 0) eqn:E; [|reflexivity].
  apply Z.eqb_eq in E. rewrite IH, from_bytes_cons, E. lia.
Qed.

Lemma lstrip0_length bs : (length (lstrip0 bs) <= length bs)%nat.
Proof.
  induction bs as [|b tl IH]; simpl; [lia|].
  destruct (Byte.eqb b x00); simpl; lia.
Qed.

Lemma lstrip0_head bs b tl :
  lstrip0 bs = b :: tl -> Z_of_byte b <> 0.
Proof.
  induction bs as [|c tl' IH]; simpl; [discriminate|].
  rewrite byte_eqb_x00. destruct (Z_of_byte c =? 0) eqn:E; [exact IH|].
  intros H. injection H as -> _. apply Z.eqb_neq in E. exact E.
Qed.

Lemma lstrip0_nil_iff bs : lstrip0 bs = [] <-> from_bytes bs = 0.
Proof.
  split.
  - intros H. rewrite <- from_bytes_lstrip0, H. reflexivity.
  - intros H. destruct (lstrip0 bs) as [|b tl] eqn:E; [reflexivity|].
    exfalso. pose proof (lstrip0_head _ _ _ E) as Hb.
    rewrite <- from_bytes_lstrip0, E, from_bytes_cons in H.
    pose proof (Z_of_byte_range b). pose proof (from_bytes_range tl).
    assert (0 < 256 ^ Z.of_nat (length tl)) by (apply Z.pow_pos_nonneg; lia).
    nia.
Qed.

Lemma two_pow_256 : 256 ^ Z.of_nat 32 = 2 ^ 256.
Proof. reflexivity. Qed.

Lemma N_lt_2_256 : N < 2 ^ 256.
Proof. reflexivity. Qed.

Lemma P_lt_2_256 : P < 2 ^ 256.
Proof. reflexivity. Qed.

Lemma N_lt_P : N < P.
Proof. reflexivity. Qed.

(** ** P and N are prime *)

Lemma bpow_pos_spec a e n :
  BigN.to_Z (bpow_pos a e n) = Zpow_mod_pos (BigN.to_Z a) e (BigN.to_Z n).
Proof.
  induction e as [e IH|e IH|]; cbn [bpow_pos Zpow_mod_pos].
  - rewrite BigN.spec_modulo, !BigN.spec_mul, IH.
    destruct (Zpow_mod_pos (BigN.to_Z a) e (BigN.to_Z n)); reflexivity.
  - rewrite BigN.spec_modulo, !BigN.spec_mul, IH.
    destruct (Zpow_mod_pos (BigN.to_Z a) e (BigN.to_Z n)); reflexivity.
  - rewrite BigN.spec_modulo. reflexivity.
Qed.

Lemma fast_pow_mod_spec a e n :
  0 <= a -> 0 < n -> fast_pow_mod a e n = a ^ e mod n.
Proof.
  intros Ha Hn. unfold fast_pow_mod.
  destruct e as [|p|p].
  - apply Zpow_mod_correct. lia.
  - rewrite bpow_pos_spec, !BigN.spec_of_N, !Z2N.id by lia.
    apply Zpow_mod_pos_correct. lia.
  - apply Zpow_mod_correct. lia.
Qed.

Lemma divide_mul_coprime a b m :
  (a | m) -> (b | m) -> Z.gcd b a = 1 -> (a * b | m).
Proof.
  intros [c Hc] Hb Hg. subst m.
  rewrite Z.mul_comm in Hb. apply Z.gauss in Hb; [|exact Hg].
  destruct Hb as [d Hd]. subst c. exists d. ring.
Qed.

Lemma pock_F_divides fs m :
  pock_coprime fs = true ->
  Forall (fun qe => (fst qe ^ snd qe | m)) fs ->
  (pock_F fs | m).
Proof.
  induction fs as [|[q e] tl IH]; intros Hc Hall.
  - simpl. apply Z.divide_1_l.
  - cbn [pock_coprime] in Hc. apply andb_true_iff in Hc as [Hg Hc].
    apply Z.eqb_eq in Hg. inversion Hall as [|? ? Hq Htl]; subst.
    cbn [pock_F fold_right fst snd] in *.
    apply divide_mul_coprime; [exact Hq | apply IH; assumption |].
    rewrite Z.gcd_comm. exact Hg.
Qed.

Section Order.
Variables (p n a q e : Z).
Hypothesis Hp : Z.prime p.
Hypothesis Hpn : (p | n).
Hypothesis Hn : 1 < n.
Hypothesis Ha : 0 <= a.
Hypothesis Hq : Z.prime q.
Hypothesis Hfermat : a ^ (n - 1) mod n = 1.
Hypothesis Hgcd : Z.gcd (a ^ ((n - 1) / q) mod n - 1) n = 1.
Hypothesis Hqe : (q ^ e | n - 1).

Let x : Zmod p := Zmod.of_Z p a.

Lemma pock_mod_p z : z mod n mod p = z mod p.
Proof.
  pose proof (Z.prime_ge_2 _ Hp).
  destruct Hpn as [k Hk]. rewrite Hk.
  rewrite (Z.mul_comm k p), Z.rem_mul_r by lia.
  rewrite Z.mul_comm, Z.mod_add by lia. apply Z.mod_mod. lia.
Qed.

Lemma pock_x_pow z : 0 <= z -> Zmod.pow x z = Zmod.of_Z p (a ^ z mod n).
Proof.
  intros Hz. unfold x. rewrite <- Zmod.of_Z_pow by exact Hz.
  apply Zmod.of_Z_inj. rewrite pock_mod_p. reflexivity.
Qed.

Lemma pock_x_order : Zmod.pow x (n - 1) = Zmod.one.
Proof.
  rewrite pock_x_pow by lia. rewrite Hfermat. apply Zmod.of_Z_1.
Qed.

Lemma pock_x_nz : x <> Zmod.zero.
Proof.
  intros H. pose proof pock_x_order as Ho. rewrite H in Ho.
  rewrite Zmod.pow_0_l in Ho by lia.
  pose proof (Z.prime_ge_2 _ Hp).
  symmetry in Ho. revert Ho. apply Zmod.one_neq_zero. lia.
Qed.

Lemma pock_x_coprime : Z.gcd (Zmod.to_Z x) p = 1.
Proof.
  pose proof (Z.prime_ge_2 _ Hp).
  pose proof pock_x_nz as Hnz. apply Zmod.to_Z_nz in Hnz.
  pose proof (Zmod.to_Z_pos_bound x ltac:(lia)).
  rewrite Z.gcd_comm. apply Z.coprime_prime_small; [exact Hp | lia].
Qed.

Lemma pock_factor_divides : (q ^ e | p - 1).
Proof.
  pose proof (Z.prime_ge_2 _ Hp) as Hp2.
  pose proof (Z.prime_ge_2 _ Hq) as Hq2.
  pose proof pock_x_coprime as Hc.
  set (g := Z.gcd (n - 1) (p - 1)).
  destruct (Z.gcd_bezout (n - 1) (p - 1) g eq_refl) as (u & v & Huv).
  assert (Hxg : Zmod.pow x g = Zmod.one).
  { rewrite <- Huv, Zmod.pow_add_r_coprime by exact Hc.
    rewrite (Z.mul_comm u), (Z.mul_comm v).
    rewrite !Zmod.pow_mul_r_coprime by exact Hc.
    rewrite pock_x_order.
    replace (p - 1) with (Z.pred p) by lia.
    rewrite Zmod.fermat_nz by (exact pock_x_nz || exact Hp).
    rewrite !Zmod.pow_1_l. apply Zmod.mul_1_l. }
  assert (Hg1 : (g | n - 1)) by apply Z.gcd_divide_l.
  assert (Hg2 : (g | p - 1)) by apply Z.gcd_divide_r.
  destruct Hg1 as [k Hk].
  assert (Hqk : ~ (q | k)).
  { intros [k' Hk'].
    assert (Hdiv : (n - 1) / q = k' * g).
    { rewrite Hk, Hk'. replace (k' * q * g) with (k' * g * q) by ring.
      apply Z.div_mul. lia. }
    assert (0 <= (n - 1) / q) by (apply Z.div_pos; lia).
    assert (Hone : Zmod.pow x ((n - 1) / q) = Zmod.one).
    { rewrite Hdiv, (Z.mul_comm k'), Zmod.pow_mul_r_coprime by exact Hc.
      rewrite Hxg. apply Zmod.pow_1_l. }
    rewrite pock_x_pow in Hone by assumption.
    rewrite <- Zmod.of_Z_1 in Hone. apply Zmod.of_Z_inj in Hone.
    rewrite (Z.mod_small 1 p) in Hone by lia.
    assert (Hpd : (p | a ^ ((n - 1) / q) mod n - 1)).
    { apply Z.mod_divide; [lia|].
      rewrite Zminus_mod, Hone, (Z.mod_small 1 p) by lia. reflexivity. }
    assert (Hp1 : (p | 1)).
    { rewrite <- Hgcd. apply Z.gcd_greatest; assumption. }
    apply Z.divide_1_r_nonneg in Hp1; lia. }
  assert (Hcop : Z.gcd (q ^ e) k = 1).
  { destruct (Z.le_gt_cases 0 e) as [He|He].
    - apply Z.coprime_pow_l; [exact He|].
      apply Z.coprime_prime_l; assumption.
    - rewrite Z.pow_neg_r in Hqe by lia.
      destruct Hqe as [z Hz]. lia. }
  rewrite Hk in Hqe. apply Z.gauss in Hqe; [|exact Hcop].
  eapply Z.divide_trans; [exact Hqe | exact Hg2].
Qed.
End Order.

Lemma prime_divisor_exists m :
  1 < m -> exists p, Z.prime p /\ (p | m).
Proof.
  intros Hm. assert (H2 : 2 <= m) by lia. clear Hm. revert m H2.
  apply (Zlt_lower_bound_ind (fun m => exists p, Z.prime p /\ (p | m)) 2).
  intros m IH Hm.
  destruct (prime_dec m) as [Hp|Hnp].
  - exists m. split; [apply prime_alt; exact Hp | apply Z.divide_refl].
  - destruct (not_prime_divide m ltac:(lia) Hnp) as (d & Hd & Hdm).
    destruct (IH d ltac:(lia)) as (p & Hp & Hpd).
    exists p. split; [exact Hp | eapply Z.divide_trans; eassumption].
Qed.

Lemma prime_of_large_divisors n F :
  1 < n -> 0 < F -> n < (F + 1) * (F + 1) ->
  (forall p, Z.prime p -> (p | n) -> (F | p - 1)) ->
  Z.prime n.
Proof.
  intros Hn HF Hlt Hall. split; [exact Hn|].
  intros d Hd [c Hc].
  assert (Hc1 : 1 < c) by nia.
  assert (Hbig : forall m, 1 < m -> (m | n) -> F + 1 <= m).
  { intros m Hm Hmn.
    destruct (prime_divisor_exists m Hm) as (p & Hp & Hpm).
    pose proof (Z.prime_ge_2 _ Hp).
    assert (Hpn : (p | n)) by (eapply Z.divide_trans; eassumption).
    specialize (Hall p Hp Hpn).
    apply Z.divide_pos_le in Hall; [|lia].
    apply Z.divide_pos_le in Hpm; lia. }
  assert (F + 1 <= d) by (apply Hbig; [lia | exists c; exact Hc]).
  assert (F + 1 <= c).
  { apply Hbig; [lia | exists d; rewrite Hc; ring]. }
  nia.
Qed.

Lemma pock_check_sound known c :
  Forall Z.prime known -> pock_check known c = true -> Z.prime (pk_n c).
Proof.
  intros Hknown Hc. unfold pock_check in Hc.
  repeat (apply andb_true_iff in Hc; destruct Hc as [Hc ?]).
  repeat match goal with
         | H : (_ <? _) = true |- _ => apply Z.ltb_lt in H
         | H : (_ <=? _) = true |- _ => apply Z.leb_le in H
         | H : (_ =? _) = true |- _ => apply Z.eqb_eq in H
         end.
  set (n := pk_n c) in *. set (a := pk_a c) in *.
  set (fs := pk_factors c) in *.
  rewrite fast_pow_mod_spec in * by lia.
  apply (prime_of_large_divisors n (pock_F fs)); try assumption.
  intros p Hp Hpn.
  assert (HF : (pock_F fs | n - 1)) by (apply Z.mod_divide; lia).
  apply pock_F_divides; [assumption|].
  match goal with H : forallb _ fs = true |- _ => rename H into Hall end.
  rewrite forallb_forall in Hall. apply Forall_forall.
  intros [q e] Hin. cbn [fst snd].
  specialize (Hall _ Hin). cbn [fst snd] in Hall.
  apply andb_true_iff in Hall as [Hq Hg].
  apply existsb_exists in Hq as (q' & Hq' & Heq).
  apply Z.eqb_eq in Heq. subst q'.
  apply Z.eqb_eq in Hg.
  rewrite Forall_forall in Hknown. specialize (Hknown _ Hq').
  rewrite fast_pow_mod_spec in Hg by lia.
  apply (pock_factor_divides p n a q e); try assumption.
  eapply Z.divide_trans; [|exact HF].
  clear - Hin. induction fs as [|[q1 e1] tl IH]; [destruct Hin|].
  cbn [pock_F fold_right fst snd]. destruct Hin as [Heq|Hin].
  - injection Heq as -> ->. apply Z.divide_factor_l.
  - apply Z.divide_mul_r. apply IH. exact Hin.
Qed.

Lemma pock_chain_sound cs : forall known,
  Forall Z.prime known -> Forall Z.prime (pock_chain known cs).
Proof.
  induction cs as [|c tl IH]; intros known Hk; cbn [pock_chain].
  - exact Hk.
  - destruct (pock_check known c) eqn:E.
    + apply IH. constructor; [|exact Hk].
      eapply pock_check_sound; eassumption.
    + apply IH. exact Hk.
Qed.

Lemma pock_chain_prime cs n :
  existsb (Z.eqb n) (pock_chain [2] cs) = true -> Z.prime n.
Proof.
  intros H. apply existsb_exists in H as (m & Hin & Heq).
  apply Z.eqb_eq in Heq. subst m.
  assert (Hs : Forall Z.prime (pock_chain [2] cs)).
  { apply pock_chain_sound. constructor; [exact Z.prime_2 | constructor]. }
  rewrite Forall_forall in Hs. apply Hs. exact Hin.
Qed.


Lemma P_prime : Z.prime P.
Proof. apply (pock_chain_prime secp256k1_certs). vm_compute. reflexivity. Qed.

Lemma N_prime : Z.prime N.
Proof. apply (pock_chain_prime secp256k1_certs). vm_compute. reflexivity. Qed.

(** ** S256FieldElement *)

Lemma S256FieldElement_range (n : Z) (o : option Z) :
  S256FieldElement n o
  = if (0 <=? n) && (n <? P) then Ok (mkFE n P) else Raise RangeError.
Proof.
  unfold S256FieldElement, FieldElement_init.
  destruct (n <? 0) eqn:E1, (P <=? n) eqn:E2,
    (0 <=? n) eqn:E3, (n <? P) eqn:E4; simpl; try reflexivity; lia.
Qed.

(** C10: the constructor of S256FieldElement never looks at its [prime]
    argument.  Whatever is passed (None or any integer), the outcome is the
    one of the base constructor called with the secp256k1 prime [P]: the
    element [number] with [prime = P] when [0 <= number < P], a RangeError
    otherwise. *)
Theorem S256FieldElement_prime_is_P (number : Z) (prime_arg : option Z) :
  S256FieldElement number prime_arg
  = if (0 <=? number) && (number <? P) then Ok (mkFE number P)
    else Raise RangeError.
Proof.
  unfold S256FieldElement, FieldElement_init.
  destruct (number <? 0) eqn:E1, (P <=? number) eqn:E2,
    (0 <=? number) eqn:E3, (number <? P) eqn:E4; simpl;
    try reflexivity; lia.
Qed.

Lemma S256FieldElement_Ok n o :
  0 <= n < P -> S256FieldElement n o = Ok (mkFE n P).
Proof.
  intros H. rewrite S256FieldElement_range.
  destruct (0 <=? n) eqn:E1, (n <? P) eqn:E2; simpl; try reflexivity; lia.
Qed.

Lemma FieldElement_init_Ok n p :
  0 <= n < p -> FieldElement_init n p = Ok (mkFE n p).
Proof.
  intros H. unfold FieldElement_init.
  destruct (n <? 0) eqn:E1, (p <=? n) eqn:E2; simpl; try reflexivity; lia.
Qed.

(** ** Signature.der *)

Lemma high_bit_test b :
  negb (Z.land (Z_of_byte b) 0x80 =? 0) = (0x80 <=? Z_of_byte b).
Proof. destruct b; reflexivity. Qed.

Lemma der_int_zero : der_int 0 = Raise IndexError.
Proof. reflexivity. Qed.

Lemma der_int_pos v :
  1 <= v < 2 ^ 256 ->
  exists h tl,
    der_int v = Ok (h :: tl)
    /\ Z_of_byte h < 0x80
    /\ (length tl <= 32)%nat
    /\ from_bytes (h :: tl) = v.
Proof.
  intros Hv. unfold der_int.
  rewrite to_bytes_Ok by (rewrite two_pow_256; lia). cbn [bind].
  assert (Hfb : from_bytes (be_bytes 32 v) = v).
  { rewrite from_bytes_be_bytes, two_pow_256. apply Z.mod_small. lia. }
  pose proof (lstrip0_length (be_bytes 32 v)) as Hlen.
  rewrite be_bytes_length in Hlen.
  pose proof (from_bytes_lstrip0 (be_bytes 32 v)) as Hval.
  rewrite Hfb in Hval.
  destruct (lstrip0 (be_bytes 32 v)) as [|b tl] eqn:E.
  - exfalso. apply lstrip0_nil_iff in E. lia.
  - cbn [first_byte bind]. rewrite high_bit_test.
    destruct (0x80 <=? Z_of_byte b) eqn:Hb.
    + exists x00, (b :: tl). repeat split.
      * simpl in Hlen |- *. lia.
      * rewrite from_bytes_cons. change (Z_of_byte x00) with 0. lia.
    + exists b, tl. repeat split.
      * apply Z.leb_gt in Hb. exact Hb.
      * simpl in Hlen. lia.
      * exact Hval.
Qed.

Lemma bytes_of_ints_pair v1 v2 :
  0 <= v1 < 256 -> 0 <= v2 < 256 ->
  bytes_of_ints [v1; v2] = Ok [byte_of_Z v1; byte_of_Z v2].
Proof.
  intros H1 H2. cbn [bytes_of_ints].
  destruct (0 <=? v1) eqn:E1, (v1 <? 256) eqn:E2; try lia.
  destruct (0 <=? v2) eqn:E3, (v2 <? 256) eqn:E4; try lia.
  reflexivity.
Qed.

(** C9: [der] is not defined on a signature with a zero component.  For
    [r] and [s] in the range [[0, N)] of the data model, if [r = 0] or
    [s = 0] the stripped byte string is empty and indexing its first byte
    raises IndexError, so [der] raises instead of returning an encoding. *)
Theorem der_zero_component_raises (sig : Signature) :
  0 <= r sig < N -> 0 <= s sig < N ->
  r sig = 0 \/ s sig = 0 ->
  der sig = Raise IndexError.
Proof.
  intros Hr Hs Hz. unfold der.
  destruct (Z.eq_dec (r sig) 0) as [E|E].
  - rewrite E, der_int_zero. reflexivity.
  - destruct Hz as [Hz|Hz]; [contradiction|].
    pose proof N_lt_2_256.
    destruct (der_int_pos (r sig)) as (h & tl & -> & _ & Hl & _); [lia|].
    cbn [bind]. rewrite bytes_of_ints_pair;
      [|unfold MARKER; lia | unfold len; simpl; lia].
    cbn [bind]. rewrite Hz, der_int_zero. reflexivity.
Qed.

Lemma der_zero_component_raises_witness :
  der (mkSignature 5 0) = Raise IndexError.
Proof.
  apply (der_zero_component_raises (mkSignature 5 0)); simpl.
  - split; [lia | reflexivity].
  - split; [lia | reflexivity].
  - right. reflexivity.
Defined.

(** [der] computed from the two integer fields. *)
Lemma der_of_fields (sig : Signature) (rb sb : bytes) :
  der_int (r sig) = Ok rb -> der_int (s sig) = Ok sb ->
  (length rb <= 33)%nat -> (length sb <= 33)%nat ->
  der sig = Ok (x30 :: byte_of_Z (len rb + len sb + 4)
                :: x02 :: byte_of_Z (len rb) :: rb
                ++ x02 :: byte_of_Z (len sb) :: sb).
Proof.
  intros Er Es Hr Hs. unfold der. rewrite Er. cbn [bind].
  rewrite bytes_of_ints_pair; [|unfold MARKER; lia | unfold len; lia].
  cbn [bind]. rewrite Es. cbn [bind].
  rewrite bytes_of_ints_pair; [|unfold MARKER; lia | unfold len; lia].
  cbn [bind].
  set (body := ([byte_of_Z MARKER; byte_of_Z (len rb)] ++ rb)
               ++ [byte_of_Z MARKER; byte_of_Z (len sb)] ++ sb).
  assert (Hbody : len body = len rb + len sb + 4).
  { unfold body, len. rewrite !length_app. cbn [length]. lia. }
  rewrite bytes_of_ints_pair;
    [|unfold PREFIX; lia | rewrite Hbody; unfold len; lia].
  cbn [bind]. rewrite Hbody. unfold body, MARKER, PREFIX.
  cbn [app]. reflexivity.
Qed.

(** C7: the shape of the DER encoding.  For [r] and [s] in [[1, N)], [der]
    returns [0x30, L, 0x02, len(rb)] ++ rb ++ [0x02, len(sb)] ++ sb where
    the declared total length [L] is the length of the encoding minus 2,
    and each integer field [rb], [sb] is non-empty, at most 33 bytes long,
    starts with a byte below 0x80 (its own first byte, or the 0x00 pad put
    in front of a byte with the high bit set) and is the big-endian
    encoding of [r], respectively [s]. *)
Theorem der_shape (sig : Signature) :
  1 <= r sig < N -> 1 <= s sig < N ->
  exists enc rh rtl sh stl,
    der sig = Ok enc
    /\ enc = x30 :: byte_of_Z (len enc - 2)
             :: x02 :: byte_of_Z (len (rh :: rtl)) :: (rh :: rtl)
             ++ x02 :: byte_of_Z (len (sh :: stl)) :: (sh :: stl)
    /\ Z_of_byte (nth 1 enc x00) = len enc - 2
    /\ Z_of_byte rh < 0x80 /\ Z_of_byte sh < 0x80
    /\ len (rh :: rtl) <= 33 /\ len (sh :: stl) <= 33
    /\ from_bytes (rh :: rtl) = r sig /\ from_bytes (sh :: stl) = s sig.
Proof.
  intros Hr Hs. pose proof N_lt_2_256.
  destruct (der_int_pos (r sig)) as (rh & rtl & Er & Hrh & Hrl & Hrv); [lia|].
  destruct (der_int_pos (s sig)) as (sh & stl & Es & Hsh & Hsl & Hsv); [lia|].
  pose proof (der_of_fields sig _ _ Er Es) as Hd.
  cbn [length] in Hd. specialize (Hd ltac:(lia) ltac:(lia)).
  eexists. exists rh, rtl, sh, stl. split; [exact Hd|].
  assert (Hlen : len (x30 :: byte_of_Z (len (rh :: rtl) + len (sh :: stl) + 4)
                      :: x02 :: byte_of_Z (len (rh :: rtl)) :: (rh :: rtl)
                      ++ x02 :: byte_of_Z (len (sh :: stl)) :: sh :: stl) - 2
                 = len (rh :: rtl) + len (sh :: stl) + 4).
  { unfold len. cbn [length]. rewrite length_app. cbn [length]. lia. }
  rewrite Hlen. split; [reflexivity|]. split.
  { cbn [nth]. apply Z_of_byte_of_Z. unfold len. cbn [length]. lia. }
  unfold len. cbn [length]. repeat split; try assumption; lia.
Qed.

Lemma der_shape_witness :
  exists enc rh rtl sh stl,
    der (mkSignature 1 255) = Ok enc
    /\ enc = x30 :: byte_of_Z (len enc - 2)
             :: x02 :: byte_of_Z (len (rh :: rtl)) :: (rh :: rtl)
             ++ x02 :: byte_of_Z (len (sh :: stl)) :: (sh :: stl)
    /\ Z_of_byte (nth 1 enc x00) = len enc - 2
    /\ Z_of_byte rh < 0x80 /\ Z_of_byte sh < 0x80
    /\ len (rh :: rtl) <= 33 /\ len (sh :: stl) <= 33
    /\ from_bytes (rh :: rtl) = 1 /\ from_bytes (sh :: stl) = 255.
Proof.
  apply (der_shape (mkSignature 1 255)); simpl.
  - split; [lia | reflexivity].
  - split; [lia | reflexivity].
Defined.

(** ** Exceptions that are never raised *)

Lemma bind_not_raise {A B} (m : result A) (f : A -> result B) e :
  m <> Raise e -> (forall v, f v <> Raise e) -> bind m f <> Raise e.
Proof.
  intros Hm Hf. destruct m as [v|e'|]; simpl.
  - apply Hf.
  - intros H. apply Hm. injection H as ->. reflexivity.
  - discriminate.
Qed.

Ltac no_raise :=
  repeat first
    [ apply bind_not_raise; [|intros ?]
    | match goal with
      | |- (if ?c then _ else _) <> _ => destruct c
      | |- (match ?o with Some _ => _ | None => _ end) <> _ => destruct o
      | |- (match ?o with
            | CInt _ => _ | CField _ => _ | CNone => _ end) <> _ => destruct o
      end
    | discriminate
    | solve [auto] ].

Lemma FieldElement_init_no_FormatError n p :
  FieldElement_init n p <> Raise FormatError.
Proof. unfold FieldElement_init. no_raise. Qed.

#[local] Hint Resolve FieldElement_init_no_FormatError : core.

Lemma fe_add_no_FormatError e1 e2 : fe_add e1 e2 <> Raise FormatError.
Proof. unfold fe_add. no_raise. Qed.

Lemma fe_sub_no_FormatError e1 e2 : fe_sub e1 e2 <> Raise FormatError.
Proof. unfold fe_sub. no_raise. Qed.

Lemma fe_mul_no_FormatError e1 e2 : fe_mul e1 e2 <> Raise FormatError.
Proof. unfold fe_mul. no_raise. Qed.

Lemma fe_pow_no_FormatError e z : fe_pow e z <> Raise FormatError.
Proof. unfold fe_pow. no_raise. Qed.

Lemma S256FieldElement_no_FormatError z o :
  S256FieldElement z o <> Raise FormatError.
Proof. unfold S256FieldElement. no_raise. Qed.

#[local] Hint Resolve fe_add_no_FormatError fe_sub_no_FormatError
  fe_mul_no_FormatError fe_pow_no_FormatError
  S256FieldElement_no_FormatError : core.

Lemma Point_init_no_FormatError xo yo av bv :
  Point_init xo yo av bv <> Raise FormatError.
Proof.
  unfold Point_init, on_curve.
  destruct xo, yo; try discriminate. no_raise.
Qed.

#[local] Hint Resolve Point_init_no_FormatError : core.

Lemma S256Point_no_FormatError xc yc :
  S256Point xc yc <> Raise FormatError.
Proof.
  unfold S256Point, coord_field. destruct xc, yc; no_raise.
Qed.

#[local] Hint Resolve S256Point_no_FormatError : core.

(** ** S256Point.verify *)

Lemma pow3_zero_base : pow3 0 (N - 2) N = 0.
Proof. reflexivity. Qed.

Lemma S256Point_rmul_zero (p : Point) :
  S256Point_rmul 0 p = Ok (mkPoint None None (a p) (b p)).
Proof. reflexivity. Qed.

(** C3 does not hold at [s = 0], a value the range [[0, N)] allows.  Then
    [s_inv], [u] and [v] are all 0, [u*G + v*self] is the point at infinity,
    whose [x] is [None], and [total.x.number] raises AttributeError: for
    every point of the secp256k1 curve, every hash [z] and every [r],
    [verify] raises instead of returning a boolean. *)
Theorem verify_zero_s_raises (self : Point) (z rv : Z) :
  a self = mkFE A P -> b self = mkFE B P ->
  verify self z (mkSignature rv 0) = Raise AttributeError.
Proof.
  intros Ha Hb. unfold verify. cbn [s r].
  rewrite pow3_zero_base, !Z.mul_0_r.
  change (0 mod N) with 0.
  rewrite !S256Point_rmul_zero. cbn [bind].
  unfold Point_add. cbn [a b x y]. rewrite Ha, Hb.
  reflexivity.
Qed.

Lemma verify_zero_s_raises_witness :
  verify G 0 (mkSignature 1 0) = Raise AttributeError.
Proof.
  apply (verify_zero_s_raises G 0 1); reflexivity.
Defined.

(** ** PrivateKey.deterministic_k *)

(** C6: only one subtraction of [N] is applied to the hash.  For
    [N < z <= 2N] the nonce of [z] is the nonce of [z - N]; for [z <= N]
    the 32 bytes of [z] itself go into the HMAC rounds; and for every
    [z > N] the bytes are those of [z - N], even when [z - N] is still
    above [N] (no reduction modulo [N]). *)
Theorem deterministic_k_single_subtraction
  (fuel : nat) (self : PrivateKey) (z : Z) :
  (N < z <= 2 * N ->
   deterministic_k fuel self z = deterministic_k fuel self (z - N))
  /\ (z <= N ->
      deterministic_k fuel self z
      = (z_bytes <- to_bytes 32 z ;;
         secret_bytes <- to_bytes 32 (secret self) ;;
         nonce_rounds fuel secret_bytes z_bytes))
  /\ (N < z ->
      deterministic_k fuel self z
      = (z_bytes <- to_bytes 32 (z - N) ;;
         secret_bytes <- to_bytes 32 (secret self) ;;
         nonce_rounds fuel secret_bytes z_bytes)).
Proof.
  unfold deterministic_k, reduce_once. repeat split; intros H.
  - destruct (z >? N) eqn:E1; [|lia].
    destruct (z - N >? N) eqn:E2; [lia|]. reflexivity.
  - destruct (z >? N) eqn:E1; [lia|]. reflexivity.
  - destruct (z >? N) eqn:E1; [|lia]. reflexivity.
Qed.

(** ** PrivateKey.sign *)

Lemma N_truediv_2 : int_truediv N 2 = S754_finite false 4503599627370496 203.
Proof. vm_compute. reflexivity. Qed.

(** [N / 2] is the float [2^255]: the low-s step compares against
    [2^255], not against the rational [N/2]. *)
Lemma low_s_threshold (sv : Z) :
  low_s sv = if sv >? 2 ^ 255 then N - sv else sv.
Proof.
  unfold low_s. rewrite N_truediv_2. cbn [int_gt_float].
  change (0 <=? 203) with true. cbv iota.
  change (Z.pos 4503599627370496 * 2 ^ 203) with (2 ^ 255).
  reflexivity.
Qed.

(** X6: the low-s step of [sign] as it runs.  The comparison [s > N / 2]
    is made against the float [N / 2], which is exactly [2^255]: [sign]
    returns [N - s0] when [s0 > 2^255] and [s0] otherwise, where
    [s0 = (z + r*secret) * k_inv mod N].  The threshold is above [N/2]: at
    [s0 = (N + 1) / 2] the step leaves the value unchanged although
    [2*s0 > N]. *)
Theorem sign_low_s_float_threshold (fuel : nat) (self : PrivateKey) (z : Z) :
  sign fuel self z
  = (k <- deterministic_k fuel self z ;;
     R <- S256Point_rmul k G ;;
     rv <- x_number R ;;
     let s0 := ((z + rv * secret self) * pow3 k (N - 2) N) mod N in
     Ok (mkSignature rv (if s0 >? 2 ^ 255 then N - s0 else s0)))
  /\ low_s ((N + 1) / 2) = (N + 1) / 2
  /\ N < 2 * ((N + 1) / 2).
Proof.
  split; [|split; [vm_compute; reflexivity | reflexivity]].
  unfold sign.
  destruct (deterministic_k fuel self z) as [k| |];
    [|reflexivity|reflexivity].
  cbn [bind]. destruct (S256Point_rmul k G) as [R| |];
    [|reflexivity|reflexivity].
  cbn [bind]. destruct (x_number R) as [rv| |]; [|reflexivity|reflexivity].
  cbn [bind]. cbv zeta. rewrite low_s_threshold. reflexivity.
Qed.

(** ** Square roots modulo P *)

Lemma sqrt_exponent : 4 * ((P + 1) / 4) = P + 1.
Proof. reflexivity. Qed.

Lemma sqrt_exponent_small : ((P + 1) / 4) mod (P - 1) = (P + 1) / 4.
Proof. reflexivity. Qed.

Lemma P_pos : 0 < P.
Proof. reflexivity. Qed.

Lemma pow3_spec base e m : m <> 0 -> pow3 base e m = base ^ e mod m.
Proof. intros Hm. unfold pow3. apply Zpow_mod_correct. exact Hm. Qed.

Lemma sqrt_candidate_squares w :
  let rt := pow3 (w * w mod P) ((P + 1) / 4) P in
  rt * rt mod P = w * w mod P.
Proof.
  cbv zeta. pose proof P_pos as HP. pose proof sqrt_exponent as E4.
  set (e := (P + 1) / 4) in *.
  assert (He : 0 <= e) by lia.
  rewrite pow3_spec by lia.
  rewrite <- Z.mul_mod by lia.
  rewrite <- Z.pow_2_r.
  rewrite <- Z.pow_mul_r by lia.
  rewrite <- Zpower_mod by lia.
  rewrite <- (Z.pow_2_r w).
  rewrite <- Z.pow_mul_r by lia.
  replace (2 * (e * 2)) with (P + 1)
    by lia.
  rewrite Z.pow_add_r, Z.pow_1_r by lia.
  rewrite Z.mul_mod, (Z.fermat P w P_prime), <- Z.mul_mod by lia.
  rewrite Z.pow_2_r. reflexivity.
Qed.

Lemma square_roots_mod_P u v :
  0 <= u < P -> 0 <= v < P -> u * u mod P = v * v mod P ->
  u = v \/ u = P - v.
Proof.
  intros Hu Hv H.
  assert (Hd : (P | (u - v) * (u + v))).
  { apply Z.mod_divide; [lia|].
    replace ((u - v) * (u + v)) with (u * u - v * v) by ring.
    rewrite Zminus_mod, H, Z.sub_diag. apply Z.mod_0_l. lia. }
  apply (Z.divide_prime_mul _ _ _ P_prime) in Hd as [[k Hk]|[k Hk]].
  - left. assert (k = 0) by nia. nia.
  - assert (k = 0 \/ k = 1) as [->| ->] by nia; [left | right]; lia.
Qed.

Lemma P_odd : P mod 2 = 1.
Proof. reflexivity. Qed.

(** C8: the square root of a square.  For every field element [w] of the
    secp256k1 field and [v = w * w], [sqrt v], which is [v ** ((P+1)/4)],
    returns an element [rt] with [rt * rt = v]. *)
Theorem sqrt_of_square (w v : FieldElement) :
  prime w = P -> 0 <= number w < P ->
  fe_mul w w = Ok v ->
  exists rt, sqrt v = Ok rt /\ fe_pow v ((P + 1) / 4) = Ok rt
             /\ fe_mul rt rt = Ok v.
Proof.
  destruct w as [wn wp]. cbn [prime number]. intros -> Hw Hv.
  pose proof P_pos as HP.
  unfold fe_mul, same_prime in Hv. cbn [prime number] in Hv.
  rewrite Z.eqb_refl, FieldElement_init_Ok in Hv
    by (apply Z.mod_pos_bound; lia).
  injection Hv as <-.
  set (rt := pow3 (wn * wn mod P) ((P + 1) / 4) P).
  assert (Hrt : 0 <= rt < P).
  { unfold rt. rewrite pow3_spec by lia. apply Z.mod_pos_bound. lia. }
  assert (Hs : fe_pow (mkFE (wn * wn mod P) P) ((P + 1) / 4)
               = Ok (mkFE rt P)).
  { unfold fe_pow. cbn [prime number]. rewrite sqrt_exponent_small.
    apply FieldElement_init_Ok. exact Hrt. }
  exists (mkFE rt P). repeat split; try exact Hs.
  unfold fe_mul, same_prime. cbn [prime number]. rewrite Z.eqb_refl.
  unfold rt. rewrite sqrt_candidate_squares.
  apply FieldElement_init_Ok. apply Z.mod_pos_bound. lia.
Qed.

Lemma sqrt_of_square_witness :
  exists rt, sqrt (mkFE 4 P) = Ok rt
             /\ fe_pow (mkFE 4 P) ((P + 1) / 4) = Ok rt
             /\ fe_mul rt rt = Ok (mkFE 4 P).
Proof.
  apply (sqrt_of_square (mkFE 2 P) (mkFE 4 P)).
  - reflexivity.
  - cbn [number]. split; [lia | reflexivity].
  - reflexivity.
Defined.

(** ** SEC round trip *)

Lemma exp_2_small : 2 mod (P - 1) = 2.
Proof. reflexivity. Qed.

Lemma exp_3_small : 3 mod (P - 1) = 3.
Proof. reflexivity. Qed.

Lemma fe_pow_S256 n e :
  0 <= e < P - 1 ->
  fe_pow (mkFE n P) e = Ok (mkFE (n ^ e mod P) P).
Proof.
  intros He. pose proof P_pos. unfold fe_pow. cbn [prime number].
  rewrite Z.mod_small by lia. rewrite pow3_spec by lia.
  apply FieldElement_init_Ok. apply Z.mod_pos_bound. lia.
Qed.

Lemma P_minus_1_big : 3 < P - 1.
Proof. reflexivity. Qed.

Lemma fe_add_S256 n m :
  fe_add (mkFE n P) (mkFE m P) = Ok (mkFE ((n + m) mod P) P).
Proof.
  pose proof P_pos. unfold fe_add, same_prime. cbn [prime number].
  rewrite Z.eqb_refl. apply FieldElement_init_Ok.
  apply Z.mod_pos_bound. lia.
Qed.

Lemma fe_mul_S256 n m :
  fe_mul (mkFE n P) (mkFE m P) = Ok (mkFE ((n * m) mod P) P).
Proof.
  pose proof P_pos. unfold fe_mul, same_prime. cbn [prime number].
  rewrite Z.eqb_refl. apply FieldElement_init_Ok.
  apply Z.mod_pos_bound. lia.
Qed.

(** The curve test of the constructor, on secp256k1 coordinates. *)
Lemma on_curve_S256 xi yi :
  on_curve (mkFE xi P) (mkFE yi P) (mkFE A P) (mkFE B P)
  = Ok (yi ^ 2 mod P =? (xi ^ 3 + 7) mod P).
Proof.
  pose proof P_pos. pose proof P_minus_1_big. unfold on_curve.
  rewrite !fe_pow_S256 by lia. cbn [bind].
  rewrite fe_mul_S256. cbn [bind]. rewrite fe_add_S256. cbn [bind].
  rewrite fe_add_S256. cbn [bind].
  unfold fe_eqb. cbn [number prime]. rewrite Z.eqb_refl, andb_true_r.
  unfold A, B. rewrite Z.mul_0_l, Z.mod_0_l, Z.add_0_r, Z.mod_mod by lia.
  rewrite Zplus_mod_idemp_l. reflexivity.
Qed.

Lemma Point_init_S256 xi yi :
  Point_init (Some (mkFE xi P)) (Some (mkFE yi P)) (mkFE A P) (mkFE B P)
  = if yi ^ 2 mod P =? (xi ^ 3 + 7) mod P then Ok (S256_point_of xi yi)
    else Raise CurveMembershipError.
Proof.
  unfold Point_init. rewrite on_curve_S256. reflexivity.
Qed.

Lemma S256_consts :
  S256FieldElement A None = Ok (mkFE A P)
  /\ S256FieldElement B None = Ok (mkFE B P).
Proof. split; reflexivity. Qed.

Lemma S256Point_CField xi yi :
  S256Point (CField (mkFE xi P)) (CField (mkFE yi P))
  = if yi ^ 2 mod P =? (xi ^ 3 + 7) mod P then Ok (S256_point_of xi yi)
    else Raise CurveMembershipError.
Proof.
  unfold S256Point. destruct S256_consts as [-> ->]. cbn [bind coord_field].
  apply Point_init_S256.
Qed.

Lemma S256Point_CInt xi yi :
  0 <= xi < P -> 0 <= yi < P ->
  S256Point (CInt xi) (CInt yi)
  = if yi ^ 2 mod P =? (xi ^ 3 + 7) mod P then Ok (S256_point_of xi yi)
    else Raise CurveMembershipError.
Proof.
  intros Hx Hy. unfold S256Point. destruct S256_consts as [-> ->].
  cbn [bind]. rewrite !S256FieldElement_Ok by assumption. cbn [bind].
  apply Point_init_S256.
Qed.

(** What a successful construction from two integers says. *)
Lemma S256Point_CInt_inv xi yi p :
  S256Point (CInt xi) (CInt yi) = Ok p ->
  0 <= xi < P /\ 0 <= yi < P
  /\ yi ^ 2 mod P = (xi ^ 3 + 7) mod P
  /\ p = S256_point_of xi yi.
Proof.
  intros H.
  assert (Hx : 0 <= xi < P).
  { unfold S256Point in H. destruct S256_consts as [E1 E2].
    rewrite E1, E2 in H. cbn [bind] in H.
    rewrite S256FieldElement_range in H.
    destruct (0 <=? xi) eqn:Ea, (xi <? P) eqn:Eb; cbn in H;
      try discriminate. lia. }
  assert (Hy : 0 <= yi < P).
  { unfold S256Point in H. destruct S256_consts as [E1 E2].
    rewrite E1, E2 in H. cbn [bind] in H.
    rewrite (S256FieldElement_Ok xi) in H by exact Hx. cbn [bind] in H.
    rewrite S256FieldElement_range in H.
    destruct (0 <=? yi) eqn:Ea, (yi <? P) eqn:Eb; cbn in H;
      try discriminate. lia. }
  rewrite S256Point_CInt in H by assumption.
  destruct (yi ^ 2 mod P =? (xi ^ 3 + 7) mod P) eqn:E; [|discriminate].
  apply Z.eqb_eq in E. injection H as <-. auto.
Qed.

Lemma slice_x xb yb b0 :
  length xb = 32%nat -> slice 1 33 (b0 :: xb ++ yb) = xb.
Proof.
  intros H. unfold slice. cbn [skipn].
  change (33 - 1)%nat with 32%nat.
  rewrite firstn_app, firstn_all2 by lia.
  rewrite H, Nat.sub_diag, firstn_O. apply app_nil_r.
Qed.

Lemma slice_y xb yb b0 :
  length xb = 32%nat -> length yb = 32%nat ->
  slice 33 65 (b0 :: xb ++ yb) = yb.
Proof.
  intros Hx Hy. unfold slice.
  change (65 - 33)%nat with 32%nat.
  change (skipn 33 (b0 :: xb ++ yb)) with (skipn 32 (xb ++ yb)).
  rewrite skipn_app, skipn_all2 by lia.
  rewrite Hx, Nat.sub_diag, skipn_O. cbn [app].
  apply firstn_all2. lia.
Qed.

Lemma from_bytes_be_bytes_32 n :
  0 <= n < P -> from_bytes (be_bytes 32 n) = n.
Proof.
  intros H. pose proof P_lt_2_256.
  rewrite from_bytes_be_bytes, two_pow_256. apply Z.mod_small. lia.
Qed.

Lemma root_by_parity rt yi :
  rt = yi \/ rt = P - yi ->
  ((rt mod 2 =? 0) = (yi mod 2 =? 0) -> rt = yi)
  /\ ((rt mod 2 =? 0) <> (yi mod 2 =? 0) -> P - rt = yi).
Proof.
  pose proof P_odd as Hodd. remember P as p eqn:Ep. clear Ep. intros H.
  split; intros Hpar; destruct H; subst; try lia;
    destruct (Z.eqb_spec ((p - yi) mod 2) 0), (Z.eqb_spec (yi mod 2) 0);
    try discriminate; try congruence;
    Z.div_mod_to_equations; lia.
Qed.

(** The root chosen by [parse] for a parity flag is the [y] whose parity
    matches the flag. *)
Lemma parse_compressed xi yi :
  0 <= xi < P -> 0 <= yi < P ->
  yi ^ 2 mod P = (xi ^ 3 + 7) mod P ->
  parse ((if yi mod 2 =? 0 then x02 else x03) :: be_bytes 32 xi)
  = Ok (S256_point_of xi yi).
Proof.
  intros Hx Hy Hc. pose proof P_pos as HP. pose proof P_odd as Hodd.
  pose proof P_minus_1_big as HP1.
  set (rt := pow3 (yi * yi mod P) ((P + 1) / 4) P).
  assert (Hrt : 0 <= rt < P).
  { unfold rt. rewrite pow3_spec by lia. apply Z.mod_pos_bound. lia. }
  assert (Hsq : rt * rt mod P = yi * yi mod P)
    by apply sqrt_candidate_squares.
  assert (Hcases : rt = yi \/ rt = P - yi)
    by (apply square_roots_mod_P; assumption).
  assert (Halpha : sqrt (mkFE ((xi ^ 3 mod P + 7) mod P) P)
                   = Ok (mkFE rt P)).
  { unfold sqrt, fe_pow. cbn [prime number]. rewrite sqrt_exponent_small.
    rewrite Zplus_mod_idemp_l, <- Hc, Z.pow_2_r.
    apply FieldElement_init_Ok. exact Hrt. }
  clearbody rt. clear Hsq.
  assert (Hpt : S256Point (CField (mkFE xi P)) (CField (mkFE yi P))
                = Ok (S256_point_of xi yi)).
  { rewrite S256Point_CField. rewrite Hc, Z.eqb_refl. reflexivity. }
  assert (Hprefix : forall c : bool,
             first_byte ((if c then x02 else x03) :: be_bytes 32 xi)
             = Ok (if c then 2 else 3)).
  { intros []; reflexivity. }
  unfold parse. rewrite Hprefix. cbn [bind].
  replace ((if yi mod 2 =? 0 then 2 else 3) =? 4) with false
    by (destruct (yi mod 2 =? 0); reflexivity).
  cbn [skipn]. rewrite from_bytes_be_bytes_32 by exact Hx.
  rewrite S256FieldElement_Ok by exact Hx. cbn [bind].
  rewrite fe_pow_S256 by lia. cbn [bind].
  destruct S256_consts as [_ ->]. cbn [bind].
  rewrite fe_add_S256. cbn [bind]. unfold B at 1.
  rewrite Halpha. cbn [bind number].
  destruct (yi mod 2 =? 0) eqn:Ey.
  - change (2 =? 2) with true. cbv iota.
    destruct (rt mod 2 =? 0) eqn:Er.
    + assert (rt = yi) as ->
        by (apply root_by_parity; [assumption | congruence]).
      exact Hpt.
    + assert (P - rt = yi) as ->
        by (apply root_by_parity; [assumption | congruence]).
      rewrite S256FieldElement_Ok by exact Hy. cbn [bind]. exact Hpt.
  - change (3 =? 2) with false. cbv iota.
    destruct (rt mod 2 =? 0) eqn:Er.
    + assert (P - rt = yi) as ->
        by (apply root_by_parity; [assumption | congruence]).
      rewrite S256FieldElement_Ok by exact Hy. cbn [bind]. exact Hpt.
    + assert (rt = yi) as ->
        by (apply root_by_parity; [assumption | congruence]).
      exact Hpt.
Qed.

(** C4: the SEC encodings decode to the point they came from.  For every
    finite point [p] of the curve (the value of [S256Point(x, y)] for two
    integers), [sec] succeeds in both formats and [parse] returns [p]
    again, whether [y] is even or odd. *)
Theorem parse_sec_roundtrip (xi yi : Z) (p : Point) :
  S256Point (CInt xi) (CInt yi) = Ok p ->
  (exists bs, sec p true = Ok bs /\ parse bs = Ok p)
  /\ (exists bs, sec p false = Ok bs /\ parse bs = Ok p).
Proof.
  intros H. apply S256Point_CInt_inv in H as (Hx & Hy & Hc & ->).
  pose proof P_lt_2_256 as HP.
  assert (Hxb : to_bytes 32 xi = Ok (be_bytes 32 xi))
    by (apply to_bytes_Ok; rewrite two_pow_256; lia).
  assert (Hyb : to_bytes 32 yi = Ok (be_bytes 32 yi))
    by (apply to_bytes_Ok; rewrite two_pow_256; lia).
  split.
  - exists ((if yi mod 2 =? 0 then x02 else x03) :: be_bytes 32 xi). split.
    + unfold sec, S256_point_of, x_number, y_number. cbn [x y bind number].
      rewrite Hxb. cbn [bind]. destruct (yi mod 2 =? 0); reflexivity.
    + apply parse_compressed; assumption.
  - exists (x04 :: be_bytes 32 xi ++ be_bytes 32 yi). split.
    + unfold sec, S256_point_of, x_number, y_number. cbn [x y bind number].
      rewrite Hxb. cbn [bind]. rewrite Hyb. reflexivity.
    + unfold parse. cbn [first_byte bind].
      change (Z_of_byte x04 =? 4) with true. cbv iota.
      rewrite slice_x, slice_y by apply be_bytes_length.
      rewrite !from_bytes_be_bytes_32 by assumption.
      rewrite S256Point_CInt by assumption.
      rewrite Hc, Z.eqb_refl. reflexivity.
Qed.

Lemma parse_sec_roundtrip_witness :
  (exists bs, sec G true = Ok bs /\ parse bs = Ok G)
  /\ (exists bs, sec G false = Ok bs /\ parse bs = Ok G).
Proof.
  apply (parse_sec_roundtrip Gx Gy G).
  vm_compute. reflexivity.
Defined.

(** ** More on sec and parse *)

Lemma sec_S256_point_of xi yi :
  0 <= xi < P -> 0 <= yi < P ->
  sec (S256_point_of xi yi) true
    = Ok ((if yi mod 2 =? 0 then x02 else x03) :: be_bytes 32 xi)
  /\ sec (S256_point_of xi yi) false
    = Ok (x04 :: be_bytes 32 xi ++ be_bytes 32 yi).
Proof.
  intros Hx Hy. pose proof P_lt_2_256 as HP.
  unfold sec, S256_point_of, x_number, y_number. cbn [x y bind number].
  rewrite !to_bytes_Ok by (rewrite two_pow_256; lia). cbn [bind].
  split; [destruct (yi mod 2 =? 0)|]; reflexivity.
Qed.

(** X1: [sec] never fails on a finite point of the curve.  The compressed
    form has 33 bytes, a first byte 0x02 for even [y] and 0x03 for odd [y],
    followed by the 32 big-endian bytes of [x]; the uncompressed form has
    65 bytes, 0x04 followed by the 32 bytes of [x] and the 32 bytes of
    [y]. *)
Theorem sec_format (xi yi : Z) (p : Point) :
  S256Point (CInt xi) (CInt yi) = Ok p ->
  exists cb ub,
    sec p true = Ok cb /\ sec p false = Ok ub
    /\ length cb = 33%nat /\ length ub = 65%nat
    /\ hd x00 cb = (if yi mod 2 =? 0 then x02 else x03)
    /\ hd x00 ub = x04
    /\ from_bytes (slice 1 33 cb) = xi
    /\ from_bytes (slice 1 33 ub) = xi
    /\ from_bytes (slice 33 65 ub) = yi.
Proof.
  intros H. apply S256Point_CInt_inv in H as (Hx & Hy & _ & ->).
  destruct (sec_S256_point_of xi yi Hx Hy) as [Hc Hu].
  eexists. eexists. split; [exact Hc|]. split; [exact Hu|].
  cbn [length hd]. rewrite length_app, !be_bytes_length.
  repeat split.
  - rewrite <- (app_nil_r (be_bytes 32 xi)) at 1.
    rewrite slice_x by apply be_bytes_length.
    apply from_bytes_be_bytes_32. exact Hx.
  - rewrite slice_x by apply be_bytes_length.
    apply from_bytes_be_bytes_32. exact Hx.
  - rewrite slice_y by apply be_bytes_length.
    apply from_bytes_be_bytes_32. exact Hy.
Qed.

Lemma sec_format_witness :
  exists cb ub,
    sec G true = Ok cb /\ sec G false = Ok ub
    /\ length cb = 33%nat /\ length ub = 65%nat
    /\ hd x00 cb = (if Gy mod 2 =? 0 then x02 else x03)
    /\ hd x00 ub = x04
    /\ from_bytes (slice 1 33 cb) = Gx
    /\ from_bytes (slice 1 33 ub) = Gx
    /\ from_bytes (slice 33 65 ub) = Gy.
Proof.
  apply (sec_format Gx Gy G). vm_compute. reflexivity.
Defined.

(** X2: the point at infinity has no SEC encoding: with a missing
    coordinate, [sec] raises AttributeError in both formats. *)
Theorem sec_infinity_raises (p : Point) (compressed : bool) :
  x p = None -> y p = None -> sec p compressed = Raise AttributeError.
Proof.
  intros Hx Hy. unfold sec, x_number, y_number. rewrite Hx, Hy.
  destruct compressed; reflexivity.
Qed.

Lemma sec_infinity_raises_witness :
  sec (mkPoint None None (mkFE A P) (mkFE B P)) true = Raise AttributeError.
Proof.
  apply (sec_infinity_raises (mkPoint None None (mkFE A P) (mkFE B P)) true);
    reflexivity.
Defined.

Lemma sqrt_S256 n :
  0 <= n < P ->
  sqrt (mkFE n P) = Ok (mkFE (pow3 n ((P + 1) / 4) P) P)
  /\ 0 <= pow3 n ((P + 1) / 4) P < P.
Proof.
  intros Hn. pose proof P_pos.
  assert (Hr : 0 <= pow3 n ((P + 1) / 4) P < P).
  { rewrite pow3_spec by lia. apply Z.mod_pos_bound. lia. }
  split; [|exact Hr].
  unfold sqrt, fe_pow. cbn [prime number]. rewrite sqrt_exponent_small.
  apply FieldElement_init_Ok. exact Hr.
Qed.

(** The compressed branch of [parse], computed: [xi] is the integer read
    from the bytes after the flag, [rt] the candidate root, [yv] the root
    with the requested parity. *)
Lemma parse_compressed_eq (b0 : byte) (tl : bytes) :
  Z_of_byte b0 <> 4 ->
  let xi := from_bytes tl in
  let rt := pow3 ((xi ^ 3 mod P + 7) mod P) ((P + 1) / 4) P in
  let yv := if Bool.eqb (Z_of_byte b0 =? 2) (rt mod 2 =? 0)
            then rt else P - rt in
  parse (b0 :: tl)
  = if P <=? xi then Raise RangeError
    else if yv =? P then Raise RangeError
    else if yv ^ 2 mod P =? (xi ^ 3 + 7) mod P
         then Ok (S256_point_of xi yv)
         else Raise CurveMembershipError.
Proof.
  intros H4 xi rt yv. pose proof P_pos as HP.
  pose proof P_minus_1_big as HP1.
  pose proof (from_bytes_range tl) as [Hx0 _]. fold xi in Hx0.
  unfold parse. cbn [first_byte bind skipn].
  apply Z.eqb_neq in H4. rewrite H4. fold xi.
  rewrite S256FieldElement_range.
  destruct (0 <=? xi) eqn:E0; [|lia]. cbn [andb].
  destruct (P <=? xi) eqn:E1.
  { destruct (xi <? P) eqn:E2; [lia|]. reflexivity. }
  destruct (xi <? P) eqn:E2; [|lia]. cbn [bind].
  rewrite fe_pow_S256 by lia. cbn [bind].
  destruct S256_consts as [_ ->]. cbn [bind].
  rewrite fe_add_S256. cbn [bind]. unfold B at 1.
  assert (Ha : 0 <= (xi ^ 3 mod P + 7) mod P < P)
    by (apply Z.mod_pos_bound; lia).
  destruct (sqrt_S256 _ Ha) as [-> Hrt]. fold rt in Hrt |- *.
  cbn [bind number].
  assert (Hfin : forall yv',
             0 <= yv' < P ->
             S256Point (CField (mkFE xi P)) (CField (mkFE yv' P))
             = (if yv' =? P then Raise RangeError
                else if yv' ^ 2 mod P =? (xi ^ 3 + 7) mod P
                     then Ok (S256_point_of xi yv')
                     else Raise CurveMembershipError)).
  { intros yv' Hy. destruct (yv' =? P) eqn:E; [lia|].
    apply S256Point_CField. }
  assert (Hneg : (y' <- S256FieldElement (P - rt) None ;;
                  S256Point (CField (mkFE xi P)) (CField y'))
                 = (if P - rt =? P then Raise RangeError
                    else if (P - rt) ^ 2 mod P =? (xi ^ 3 + 7) mod P
                         then Ok (S256_point_of xi (P - rt))
                         else Raise CurveMembershipError)).
  { rewrite S256FieldElement_range.
    destruct (P - rt =? P) eqn:E.
    - destruct (P - rt <? P) eqn:E'; [lia|].
      rewrite andb_false_r. reflexivity.
    - destruct (0 <=? P - rt) eqn:Ea; [|lia].
      destruct (P - rt <? P) eqn:Eb; [|lia]. cbn [andb bind].
      rewrite S256Point_CField. reflexivity. }
  unfold yv.
  destruct (Z_of_byte b0 =? 2), (rt mod 2 =? 0); cbn [Bool.eqb];
    first [apply Hfin; exact Hrt | exact Hneg].
Qed.

Lemma parse_uncompressed_eq (b0 : byte) (bs : bytes) :
  Z_of_byte b0 = 4 ->
  let xi := from_bytes (slice 1 33 (b0 :: bs)) in
  let yi := from_bytes (slice 33 65 (b0 :: bs)) in
  parse (b0 :: bs)
  = if (P <=? xi) || (P <=? yi) then Raise RangeError
    else if yi ^ 2 mod P =? (xi ^ 3 + 7) mod P
         then Ok (S256_point_of xi yi)
         else Raise CurveMembershipError.
Proof.
  intros H4 xi yi.
  pose proof (from_bytes_range (slice 1 33 (b0 :: bs))) as [Hx0 _].
  pose proof (from_bytes_range (slice 33 65 (b0 :: bs))) as [Hy0 _].
  fold xi in Hx0. fold yi in Hy0.
  unfold parse. cbn [first_byte bind]. rewrite H4.
  change (4 =? 4) with true. cbv iota. fold xi yi.
  destruct (P <=? xi) eqn:Ex.
  { unfold S256Point. destruct S256_consts as [-> ->]. cbn [bind].
    rewrite S256FieldElement_range.
    destruct (xi <? P) eqn:E; [lia|]. rewrite andb_false_r. reflexivity. }
  destruct (P <=? yi) eqn:Ey.
  { unfold S256Point. destruct S256_consts as [-> ->]. cbn [bind].
    rewrite S256FieldElement_Ok by lia. cbn [bind].
    rewrite S256FieldElement_range.
    destruct (yi <? P) eqn:E; [lia|]. rewrite andb_false_r. reflexivity. }
  cbn [orb]. apply S256Point_CInt; lia.
Qed.

(** ** S256Point.parse and the leading byte *)

Lemma parse_prefix_not_4_2 (b0 : byte) (tl : bytes) :
  Z_of_byte b0 <> 4 -> Z_of_byte b0 <> 2 ->
  parse (b0 :: tl) = parse (x03 :: tl).
Proof.
  intros H4 H2. unfold parse. cbn [first_byte bind].
  apply Z.eqb_neq in H4. apply Z.eqb_neq in H2. rewrite H4, H2.
  reflexivity.
Qed.

(** C2 does not hold: the leading byte 0x05 followed by the 32-byte
    x-coordinate of [G] is not rejected; [parse] reads it as a compressed
    encoding with odd [y] and returns the point [-G]. *)
Lemma parse_accepts_prefix_05 :
  parse (x05 :: be_bytes 32 Gx) = Ok neg_G.
Proof.
  rewrite parse_prefix_not_4_2 by (vm_compute; discriminate).
  apply (parse_compressed Gx (P - Gy)); vm_compute;
    first [reflexivity | split; [discriminate | reflexivity]].
Qed.

Lemma parse_no_FormatError (bs : bytes) : parse bs <> Raise FormatError.
Proof.
  destruct bs as [|b0 tl]; [discriminate|].
  destruct (Z.eq_dec (Z_of_byte b0) 4) as [E4|E4].
  - rewrite (parse_uncompressed_eq b0 tl E4). cbv zeta.
    repeat match goal with
           | |- (if ?c then _ else _) <> _ => destruct c
           end; discriminate.
  - rewrite (parse_compressed_eq b0 tl E4). cbv zeta.
    repeat match goal with
           | |- (if ?c then _ else _) <> _ => destruct c
           end; discriminate.
Qed.

Lemma byte_2_is_x02 (b0 : byte) : Z_of_byte b0 = 2 -> b0 = x02.
Proof.
  intros H. rewrite <- (byte_of_Z_of_byte b0), H. reflexivity.
Qed.

(** C2, as the code has it: [parse] does not validate the leading byte and
    never raises a FormatError, on any input.  The empty string raises
    IndexError.  A leading byte 0x04 selects the uncompressed form: the
    coordinates are read from bytes 1..32 and 33..64 and the result is the
    point they give, a RangeError if one is not below [P], or a
    CurveMembershipError.  Every other leading byte selects the compressed
    form: the abscissa is read from all the bytes that follow, the
    candidate root [rt] of [x^3 + 7] is computed, and the ordinate is the
    even one of [rt] and [P - rt] when the byte is 0x02, the odd one for
    any other byte, 0x03 or not.  So a leading byte outside 0x02, 0x03 and
    0x04 is handled exactly like 0x03 and the input is read as a point
    encoding: followed by the abscissa of a point of the curve, it decodes
    to the point with that abscissa and the odd ordinate, as 0x02 does for
    the even one. *)
Theorem parse_leading_byte :
  (forall bs : bytes, parse bs <> Raise FormatError)
  /\ parse [] = Raise IndexError
  /\ (forall (b0 : byte) (tl : bytes),
        Z_of_byte b0 = 4 ->
        let xi := from_bytes (slice 1 33 (b0 :: tl)) in
        let yi := from_bytes (slice 33 65 (b0 :: tl)) in
        parse (b0 :: tl)
        = if (P <=? xi) || (P <=? yi) then Raise RangeError
          else if yi ^ 2 mod P =? (xi ^ 3 + 7) mod P
               then Ok (S256_point_of xi yi)
               else Raise CurveMembershipError)
  /\ (forall (b0 : byte) (tl : bytes),
        Z_of_byte b0 <> 4 ->
        let xi := from_bytes tl in
        let rt := pow3 ((xi ^ 3 mod P + 7) mod P) ((P + 1) / 4) P in
        let yv := if Bool.eqb (Z_of_byte b0 =? 2) (rt mod 2 =? 0)
                  then rt else P - rt in
        parse (b0 :: tl)
        = if P <=? xi then Raise RangeError
          else if yv =? P then Raise RangeError
          else if yv ^ 2 mod P =? (xi ^ 3 + 7) mod P
               then Ok (S256_point_of xi yv)
               else Raise CurveMembershipError)
  /\ (forall (b0 : byte) (tl : bytes),
        Z_of_byte b0 <> 4 -> Z_of_byte b0 <> 2 ->
        parse (b0 :: tl) = parse (x03 :: tl))
  /\ (forall (b0 : byte) (xi yi : Z),
        Z_of_byte b0 <> 4 ->
        0 <= xi < P -> 0 <= yi < P ->
        yi ^ 2 mod P = (xi ^ 3 + 7) mod P ->
        (Z_of_byte b0 =? 2) = (yi mod 2 =? 0) ->
        parse (b0 :: be_bytes 32 xi) = Ok (S256_point_of xi yi)).
Proof.
  split; [exact parse_no_FormatError|].
  split; [reflexivity|].
  split; [exact parse_uncompressed_eq|].
  split; [exact parse_compressed_eq|].
  split; [exact parse_prefix_not_4_2|].
  intros b0 xi yi H4 Hx Hy Hc Hpar.
  destruct (Z.eqb_spec (Z_of_byte b0) 2) as [E2|E2].
  - apply byte_2_is_x02 in E2. subst b0.
    pose proof (parse_compressed xi yi Hx Hy Hc) as H.
    rewrite <- Hpar in H. exact H.
  - rewrite parse_prefix_not_4_2 by assumption.
    pose proof (parse_compressed xi yi Hx Hy Hc) as H.
    rewrite <- Hpar in H. exact H.
Qed.

Lemma parity_of_opposite rt :
  ((P - rt) mod 2 =? 0) = negb (rt mod 2 =? 0).
Proof.
  pose proof P_odd as Hodd. remember P as pp eqn:E. clear E.
  destruct (Z.eqb_spec ((pp - rt) mod 2) 0), (Z.eqb_spec (rt mod 2) 0);
    try reflexivity; Z.div_mod_to_equations; lia.
Qed.

(** X3: encoding what was decoded gives the input back.  When [parse]
    accepts a 33-byte string that starts with 0x02 or 0x03, the compressed
    encoding of the result is that string; when it accepts a 65-byte string
    that starts with 0x04, the uncompressed encoding of the result is that
    string. *)
Theorem sec_parse_roundtrip (b0 : byte) (tl : bytes) (p : Point) :
  parse (b0 :: tl) = Ok p ->
  ((b0 = x02 \/ b0 = x03) -> length tl = 32%nat ->
   sec p true = Ok (b0 :: tl))
  /\ (b0 = x04 -> length tl = 64%nat -> sec p false = Ok (b0 :: tl)).
Proof.
  intros Hp. pose proof P_pos as HP. split.
  - intros Hb Hl.
    assert (E4 : Z_of_byte b0 <> 4) by (destruct Hb; subst; discriminate).
    rewrite (parse_compressed_eq b0 tl E4) in Hp. cbv zeta in Hp.
    set (xi := from_bytes tl) in *.
    set (rt := pow3 ((xi ^ 3 mod P + 7) mod P) ((P + 1) / 4) P) in *.
    assert (Hrt : 0 <= rt < P).
    { unfold rt. rewrite pow3_spec by lia. apply Z.mod_pos_bound. lia. }
    pose proof (from_bytes_range tl) as [Hx0 _]. fold xi in Hx0.
    clearbody rt.
    destruct (P <=? xi) eqn:Ex; [discriminate|].
    set (yv := if Bool.eqb (Z_of_byte b0 =? 2) (rt mod 2 =? 0)
               then rt else P - rt) in *.
    destruct (yv =? P) eqn:Ey; [discriminate|].
    destruct (yv ^ 2 mod P =? (xi ^ 3 + 7) mod P); [|discriminate].
    injection Hp as <-.
    assert (Hyv : 0 <= yv < P).
    { apply Z.eqb_neq in Ey. unfold yv in *.
      destruct (Bool.eqb _ _); lia. }
    destruct (sec_S256_point_of xi yv ltac:(lia) Hyv) as [-> _].
    unfold xi. rewrite <- Hl, be_bytes_from_bytes. do 2 f_equal.
    assert (Hpar : (yv mod 2 =? 0) = (Z_of_byte b0 =? 2)).
    { unfold yv.
      destruct (Z_of_byte b0 =? 2), (rt mod 2 =? 0) eqn:Er;
        cbn [Bool.eqb]; rewrite ?parity_of_opposite, ?Er; reflexivity. }
    rewrite Hpar. destruct Hb; subst; reflexivity.
  - intros -> Hl.
    rewrite (parse_uncompressed_eq x04 tl eq_refl) in Hp. cbv zeta in Hp.
    set (xb := firstn 32 tl). set (yb := skipn 32 tl).
    assert (Htl : tl = xb ++ yb) by (symmetry; apply firstn_skipn).
    assert (Hxl : length xb = 32%nat)
      by (unfold xb; rewrite length_firstn; lia).
    assert (Hyl : length yb = 32%nat)
      by (unfold yb; rewrite length_skipn; lia).
    rewrite Htl in Hp |- *.
    rewrite slice_x, slice_y in Hp by assumption.
    pose proof (from_bytes_range xb) as [Hx0 _].
    pose proof (from_bytes_range yb) as [Hy0 _].
    destruct (P <=? from_bytes xb) eqn:Ex; [discriminate|].
    destruct (P <=? from_bytes yb) eqn:Ey; [discriminate|].
    cbn [orb] in Hp.
    destruct (_ =? _) in Hp; [|discriminate].
    injection Hp as <-.
    destruct (sec_S256_point_of (from_bytes xb) (from_bytes yb)
                ltac:(lia) ltac:(lia)) as [_ ->].
    rewrite <- Hxl at 1. rewrite <- Hyl at 1.
    rewrite !be_bytes_from_bytes. reflexivity.
Qed.

Lemma sec_parse_roundtrip_witness :
  ((x02 = x02 \/ x02 = x03) -> length (be_bytes 32 Gx) = 32%nat ->
   sec G true = Ok (x02 :: be_bytes 32 Gx))
  /\ (x02 = x04 -> length (be_bytes 32 Gx) = 64%nat ->
      sec G false = Ok (x02 :: be_bytes 32 Gx)).
Proof.
  apply (sec_parse_roundtrip x02 (be_bytes 32 Gx) G).
  change x02 with (if Gy mod 2 =? 0 then x02 else x03).
  apply parse_compressed; vm_compute;
    first [reflexivity | split; [discriminate | reflexivity]].
Defined.

(** ** More on Signature.der *)

Lemma der_int_outcomes v :
  (exists h tl, der_int v = Ok (h :: tl) /\ 1 <= v < 2 ^ 256)
  \/ (der_int v = Raise IndexError /\ v = 0)
  \/ (der_int v = Raise OverflowError /\ (v < 0 \/ 2 ^ 256 <= v)).
Proof.
  destruct (Z_lt_dec v 0) as [Hneg|Hnn].
  { right; right. split; [|left; exact Hneg].
    unfold der_int. rewrite to_bytes_overflow by (left; exact Hneg).
    reflexivity. }
  destruct (Z_le_dec (2 ^ 256) v) as [Hbig|Hsmall].
  { right; right. split; [|right; exact Hbig].
    unfold der_int.
    rewrite to_bytes_overflow by (right; rewrite two_pow_256; exact Hbig).
    reflexivity. }
  destruct (Z.eq_dec v 0) as [->|Hnz].
  { right; left. split; reflexivity. }
  left. destruct (der_int_pos v ltac:(lia)) as (h & tl & E & _).
  exists h, tl. split; [exact E | lia].
Qed.


Lemma app_same_length_inj {T} (l1 l2 r1 r2 : list T) :
  length l1 = length l2 -> l1 ++ r1 = l2 ++ r2 -> l1 = l2 /\ r1 = r2.
Proof.
  revert l2. induction l1 as [|h t IH]; intros [|h2 t2] Hl H;
    try discriminate.
  - split; [reflexivity | exact H].
  - cbn [app] in H. injection H as -> H. cbn [length] in Hl.
    destruct (IH t2 ltac:(lia) H) as [-> ->]. split; reflexivity.
Qed.

(** X5: the DER encoding is injective.  Two signatures with components in
    [[1, 2^256)] that have the same encoding are the same signature. *)
Theorem der_injective (sig1 sig2 : Signature) :
  1 <= r sig1 < 2 ^ 256 -> 1 <= s sig1 < 2 ^ 256 ->
  1 <= r sig2 < 2 ^ 256 -> 1 <= s sig2 < 2 ^ 256 ->
  der sig1 = der sig2 ->
  sig1 = sig2.
Proof.
  intros Hr1 Hs1 Hr2 Hs2 E.
  destruct (der_int_pos _ Hr1) as (rh1 & rt1 & Er1 & _ & Lr1 & Vr1).
  destruct (der_int_pos _ Hs1) as (sh1 & st1 & Es1 & _ & Ls1 & Vs1).
  destruct (der_int_pos _ Hr2) as (rh2 & rt2 & Er2 & _ & Lr2 & Vr2).
  destruct (der_int_pos _ Hs2) as (sh2 & st2 & Es2 & _ & Ls2 & Vs2).
  rewrite (der_of_fields sig1 _ _ Er1 Es1) in E by (cbn [length]; lia).
  rewrite (der_of_fields sig2 _ _ Er2 Es2) in E by (cbn [length]; lia).
  injection E as _ HL Hrh Hrest.
  assert (Hlen : len (rh1 :: rt1) = len (rh2 :: rt2)).
  { rewrite <- (Z_of_byte_of_Z (len (rh1 :: rt1))),
            <- (Z_of_byte_of_Z (len (rh2 :: rt2))), HL; try reflexivity;
      unfold len; cbn [length]; lia. }
  apply app_same_length_inj in Hrest as [Hrb Hsb];
    [|unfold len in Hlen; cbn [length] in Hlen; lia].
  injection Hsb as _ Hsh Hst.
  destruct sig1 as [r1 s1], sig2 as [r2 s2]. cbn [r s] in *.
  f_equal.
  - rewrite <- Vr1, <- Vr2, Hrh, Hrb. reflexivity.
  - rewrite <- Vs1, <- Vs2, Hsh, Hst. reflexivity.
Qed.

Lemma der_injective_witness :
  mkSignature 1 255 = mkSignature 1 255.
Proof.
  apply (der_injective (mkSignature 1 255) (mkSignature 1 255));
    cbn [r s]; first [reflexivity | split; [lia | reflexivity]].
Defined.

(** ** The group law of the curve *)

Section CurveLaws.
Import Stdlib.setoid_ring.Algebra_syntax Stdlib.setoid_ring.Ncring.
Import Stdlib.setoid_ring.Cring Stdlib.setoid_ring.Integral_domain.
Local Close Scope Z_scope.
Context {F : Type} `{Fid : Integral_domain F (ring_eq := @eq F)}.
Variable finv : F -> F.
Variable Feq_dec : forall u v : F, {u = v} + {u <> v}.
Variable cb : F.
Hypothesis finv_ok : forall u : F, u <> 0 -> u * finv u = 1.
Hypothesis char_ok :
  forall c : Z, (0 < Z.abs c < 2 ^ 64)%Z -> IZR1 c <> (0 : F).
Hypothesis no_order2 : forall u : F, u * u * u + cb <> 0.

Local Notation "'on_curve'' p" := (affine_on_curve cb p) (at level 10, p at level 9).
Local Notation "'add'' p q" := (affine_add finv Feq_dec p q) (at level 10, p at level 9, q at level 9).
Local Notation "'mul'' n p" := (affine_mul finv Feq_dec n p) (at level 10, n at level 9, p at level 9).

Ltac nsatz_char := nsatz; apply char_ok; vm_compute; split; reflexivity.

Lemma two_nonzero : (1 + 1 : F) <> 0.
Proof. apply (char_ok 2). vm_compute. split; reflexivity. Qed.

Lemma ordinate_nonzero (x1 y1 : F) : y1 * y1 = x1 * x1 * x1 + cb -> y1 <> 0.
Proof. intros H E. apply (no_order2 x1). nsatz. Qed.

Lemma affine_add_spec (x1 y1 x2 y2 : F) :
  y1 * y1 = x1 * x1 * x1 + cb -> y2 * y2 = x2 * x2 * x2 + cb ->
  affine_add_case cb x1 y1 x2 y2 (add' (Some (x1, y1)) (Some (x2, y2))).
Proof.
  intros H1 H2. unfold affine_add.
  pose proof (ordinate_nonzero _ _ H1) as Hy.
  destruct (Feq_dec x1 x2) as [Ex|Ex].
  - destruct (Feq_dec y1 y2) as [Ey|Ey].
    + destruct (Feq_dec y1 0) as [E0|E0]; [contradiction|].
      assert (I : (1 + 1) * y1 * finv ((1 + 1) * y1) = 1).
      { apply finv_ok. intros E.
        destruct (integral_domain_product _ _ E) as [E'|E'];
          [exact (two_nonzero E') | contradiction]. }
      cbv zeta.
      eapply case_tangent; try reflexivity; auto.
      subst. generalize dependent (finv ((1 + 1) * y2)). intros.
      nsatz_char.
    + apply case_opposite; auto.
      assert (E : (y2 - y1) * (y2 + y1) = 0) by nsatz.
      destruct (integral_domain_product _ _ E) as [E'|E'].
      * exfalso. apply Ey. nsatz.
      * nsatz.
  - assert (I : (x2 - x1) * finv (x2 - x1) = 1).
    { apply finv_ok. intros E. apply Ex. nsatz. }
    cbv zeta. eapply case_chord; try reflexivity; auto.
    generalize dependent (finv (x2 - x1)). intros. nsatz.
Qed.

Lemma affine_add_on_curve (p q : affine) :
  on_curve' p -> on_curve' q -> on_curve' (add' p q).
Proof.
  destruct p as [[x1 y1]|], q as [[x2 y2]|]; try (cbn; tauto).
  intros Hp Hq. cbn [affine_on_curve] in Hp, Hq.
  destruct (affine_add_spec x1 y1 x2 y2 Hp Hq); cbn; auto.
Qed.

Lemma affine_add_None_r (p : affine) : add' p None = p.
Proof. destruct p as [[x1 y1]|]; reflexivity. Qed.

(** Two finite points whose sum is the point at infinity have the same
    abscissa. *)
Lemma affine_add_None_abscissa (x1 y1 x2 y2 : F) :
  add' (Some (x1, y1)) (Some (x2, y2)) = None -> x1 = x2.
Proof.
  unfold affine_add. destruct (Feq_dec x1 x2) as [E|E]; [intros _; exact E|].
  discriminate.
Qed.

Ltac ordinate_inverse H :=
  let W := fresh "W" in
  pose proof (finv_ok _ (ordinate_nonzero _ _ H)) as W;
  match type of W with _ * ?t = _ => generalize dependent t; intros end.

Ltac same_variables :=
  repeat match goal with
         | H : ?u = ?v |- _ => is_var u; is_var v; subst u
         end.

(** Closes one case of the associativity proof: the two sides are both at
    infinity, or one is and the equations are contradictory, or both are
    finite and their coordinates agree. *)
Ltac assoc_case :=
  lazymatch goal with
  | |- None = None => reflexivity
  | |- Some _ = None =>
      exfalso; apply integral_domain_one_zero; nsatz_char
  | |- None = Some _ =>
      exfalso; apply integral_domain_one_zero; nsatz_char
  | |- Some _ = Some _ =>
      repeat match goal with
             | H : ?v * ?w = 1 |- _ => is_var v; is_var w; clear H; try clear w
             | H : ?v * ?v = ?u * ?u * ?u + cb |- _ =>
                 lazymatch goal with
                 | E : v = _ |- _ => clear H
                 end
             end;
      f_equal; f_equal; nsatz_char
  end.

Lemma affine_add_assoc (p q r : affine) :
  on_curve' p -> on_curve' q -> on_curve' r ->
  add' (add' p q) r = add' p (add' q r).
Proof.
  destruct p as [[x1 y1]|]; [|reflexivity].
  destruct q as [[x2 y2]|]; [|reflexivity].
  destruct r as [[x3 y3]|]; [|intros; rewrite !affine_add_None_r; reflexivity].
  cbn [affine_on_curve]. intros Hp Hq Hr.
  destruct (affine_add_spec x1 y1 x2 y2 Hp Hq)
    as [E1 E2|i m x12 y12 E1 E2 I1 M1 X12 Y12 H12
       |i m x12 y12 I1 M1 X12 Y12 H12];
  destruct (affine_add_spec x2 y2 x3 y3 Hq Hr)
    as [E3 E4|j n x23 y23 E3 E4 I2 M2 X23 Y23 H23
       |j n x23 y23 I2 M2 X23 Y23 H23].
  all: change (add' None (Some (x3, y3))) with (Some (x3, y3)).
  all: rewrite ?affine_add_None_r.
  all: try (destruct (affine_add_spec x12 y12 x3 y3 H12 Hr)
    as [E5 E6|k o xl yl E5 E6 I3 M3 XL YL HL|k o xl yl I3 M3 XL YL HL]).
  all: try (destruct (affine_add_spec x1 y1 x23 y23 Hp H23)
    as [E7 E8|k' o' xr yr E7 E8 I4 M4 XR YR HR
       |k' o' xr yr I4 M4 XR YR HR]).
  all: ordinate_inverse Hp; ordinate_inverse Hq; ordinate_inverse Hr.
  all: same_variables.
  all: assoc_case.
Qed.

(** The tangent formula as [Point.__add__] evaluates it, with the curve
    coefficient [a = 0] added to the numerator and the integer factors on
    the right. *)
Lemma tangent_as_computed (u v i : F) :
  (u * u * (1 + 1 + 1) + 0) * i * ((u * u * (1 + 1 + 1) + 0) * i)
    - u * (1 + 1)
  = (1 + 1 + 1) * (u * u) * i * ((1 + 1 + 1) * (u * u) * i) - (1 + 1) * u
  /\ (u * u * (1 + 1 + 1) + 0) * i
       * (u - ((u * u * (1 + 1 + 1) + 0) * i * ((u * u * (1 + 1 + 1) + 0) * i)
               - u * (1 + 1))) - v
     = (1 + 1 + 1) * (u * u) * i
       * (u - ((1 + 1 + 1) * (u * u) * i * ((1 + 1 + 1) * (u * u) * i)
               - (1 + 1) * u)) - v.
Proof. split; nsatz. Qed.

Lemma affine_mul_on_curve (n : nat) (p : affine) :
  on_curve' p -> on_curve' (mul' n p).
Proof.
  intros Hp. induction n as [|n IH]; cbn [affine_mul]; [exact I|].
  apply affine_add_on_curve; assumption.
Qed.

Lemma affine_mul_None (n : nat) : mul' n None = None.
Proof. induction n as [|n IH]; cbn [affine_mul affine_add]; auto. Qed.

Lemma affine_mul_add (m n : nat) (p : affine) :
  on_curve' p -> mul' (m + n)%nat p = add' (mul' m p) (mul' n p).
Proof.
  intros Hp. induction m as [|m IH]; [reflexivity|].
  cbn [Nat.add affine_mul]. rewrite IH.
  symmetry. apply affine_add_assoc; auto using affine_mul_on_curve.
Qed.

Lemma affine_mul_mul (m n : nat) (p : affine) :
  on_curve' p -> mul' (m * n)%nat p = mul' m (mul' n p).
Proof.
  intros Hp. induction m as [|m IH]; [reflexivity|].
  cbn [Nat.mul affine_mul]. rewrite affine_mul_add, IH by exact Hp.
  reflexivity.
Qed.

Lemma affine_mul_double (p : affine) : mul' 2 p = add' p p.
Proof. cbn [affine_mul]. rewrite affine_add_None_r. reflexivity. Qed.

(** Scalars act modulo the order of the point. *)
Lemma affine_mul_order (n m : nat) (p : affine) :
  on_curve' p -> mul' n p = None -> mul' m p = mul' (m mod n)%nat p.
Proof.
  intros Hp Hn. destruct n as [|n']; [reflexivity|].
  set (n := S n') in *.
  rewrite (Nat.div_mod_eq m n) at 1.
  rewrite affine_mul_add by exact Hp.
  rewrite (Nat.mul_comm n), affine_mul_mul by exact Hp.
  rewrite Hn, affine_mul_None. reflexivity.
Qed.

End CurveLaws.

(** ** The field of integers modulo [P] *)

Lemma Fp_inv_ok (u : Zmod P) : u <> Zmod.zero -> Zmod.mul u (Zmod.inv u) = Zmod.one.
Proof. intros H. apply Zmod.mul_inv_same_r_prime; [exact P_prime | exact H]. Qed.

Lemma IPR_of_Z (p : positive) :
  IPR (Ro := Ring_ops_Zmod P) p = Zmod.of_Z P (Zpos p).
Proof.
  assert (H1 : Zmod.one = Zmod.of_Z P 1) by (symmetry; apply Zmod.of_Z_1).
  assert (Hodd : forall q, q <> xH ->
            IPR (Ro := Ring_ops_Zmod P) q~1
            = Zmod.add Zmod.one
                (Zmod.mul (Zmod.add Zmod.one Zmod.one)
                   (IPR (Ro := Ring_ops_Zmod P) q))).
  { intros [q|q|] Hq; [reflexivity | reflexivity | congruence]. }
  assert (Heven : forall q, q <> xH ->
            IPR (Ro := Ring_ops_Zmod P) q~0
            = Zmod.mul (Zmod.add Zmod.one Zmod.one)
                (IPR (Ro := Ring_ops_Zmod P) q)).
  { intros [q|q|] Hq; [reflexivity | reflexivity | congruence]. }
  induction p as [p IH|p IH|].
  - destruct (Pos.eq_dec p 1) as [->|Hp].
    + change (Zmod.add (m:=P) Zmod.one (Zmod.add Zmod.one Zmod.one)
              = Zmod.of_Z P 3).
      rewrite H1, <- !Zmod.of_Z_add. reflexivity.
    + rewrite (Hodd p Hp), IH, H1, <- Zmod.of_Z_add, <- Zmod.of_Z_mul,
        <- Zmod.of_Z_add. reflexivity.
  - destruct (Pos.eq_dec p 1) as [->|Hp].
    + change (Zmod.add (m:=P) Zmod.one Zmod.one = Zmod.of_Z P 2).
      rewrite H1, <- !Zmod.of_Z_add. reflexivity.
    + rewrite (Heven p Hp), IH, H1, <- Zmod.of_Z_add, <- Zmod.of_Z_mul.
      reflexivity.
  - exact H1.
Qed.

Lemma of_Z_small_nonzero (c : Z) :
  0 < Z.abs c < P -> Zmod.of_Z P c <> Zmod.zero.
Proof.
  intros Hc. apply Zmod.of_Z_nz. intros E.
  apply Z.mod_divide in E; [|pose proof P_pos; lia].
  apply Z.divide_abs_r in E.
  apply Z.divide_pos_le in E; lia.
Qed.

Lemma Fp_char_ok (c : Z) :
  0 < Z.abs c < 2 ^ 64 -> IZR1 (Ro := Ring_ops_Zmod P) c <> Zmod.zero.
Proof.
  intros Hc.
  assert (H64 : 2 ^ 64 < P) by reflexivity.
  destruct c as [|p|p]; [cbn in Hc; lia| |]; unfold IZR1.
  - rewrite IPR_of_Z. apply of_Z_small_nonzero. lia.
  - change (Zmod.opp (IPR (Ro := Ring_ops_Zmod P) p) <> Zmod.zero).
    rewrite IPR_of_Z, <- Zmod.of_Z_opp. apply of_Z_small_nonzero.
    cbn [Z.opp]. lia.
Qed.

Lemma cube_exponent : 3 * ((P - 1) / 3) = Z.pred P.
Proof. reflexivity. Qed.

(** [-7] is not a cube modulo [P]: by Fermat's little theorem a cube has
    the power [(P - 1) / 3] equal to 1. *)
Lemma minus_B_not_cube : fast_pow_mod (P - B) ((P - 1) / 3) P <> 1.
Proof. vm_compute. discriminate. Qed.

(** No point of the curve has a zero ordinate: secp256k1 has no point of
    order 2. *)
Lemma Fp_no_order2 (u : Zmod P) :
  Zmod.add (Zmod.mul (Zmod.mul u u) u) (Zmod.of_Z P B) <> Zmod.zero.
Proof.
  intros E. pose proof P_pos as HP. pose proof P_prime as Hprime.
  assert (HB : 0 < B < P) by (split; reflexivity).
  assert (Hu : u <> Zmod.zero).
  { intros ->. rewrite !Zmod.mul_0_l, Zmod.add_0_l in E.
    revert E. apply of_Z_small_nonzero. lia. }
  assert (E3 : Zmod.pow u 3 = Zmod.of_Z P (P - B)).
  { change 3 with (Z.succ (Z.succ 1)).
    rewrite !Zmod.pow_succ_nonneg_r, Zmod.pow_1_r by lia.
    rewrite Zmod.add_comm in E. apply Zmod.add_eq_0 in E.
    rewrite Zmod.mul_assoc, E, <- Zmod.of_Z_opp.
    apply Zmod.of_Z_inj. reflexivity. }
  apply (f_equal (fun t => Zmod.pow t ((P - 1) / 3))) in E3.
  rewrite <- Zmod.pow_mul_r_nonneg, cube_exponent in E3
    by (try apply Z.div_pos; lia).
  rewrite Zmod.fermat_nz in E3 by assumption.
  rewrite <- Zmod.of_Z_pow, <- Zmod.of_Z_1 in E3 by (apply Z.div_pos; lia).
  apply Zmod.of_Z_inj in E3.
  rewrite <- fast_pow_mod_spec in E3 by lia.
  apply minus_B_not_cube. rewrite <- E3. reflexivity.
Qed.

(** ** The group of secp256k1 *)

Lemma secp_add_on_curve (p q : secp_point) :
  secp_on_curve p -> secp_on_curve q -> secp_on_curve (secp_add p q).
Proof.
  apply (affine_add_on_curve (Fid := Integral_domain_Zmod P P_prime)
           Zmod.inv Fp_eq_dec (Zmod.of_Z P B)
           Fp_inv_ok Fp_char_ok Fp_no_order2).
Qed.

Lemma secp_add_assoc (p q r : secp_point) :
  secp_on_curve p -> secp_on_curve q -> secp_on_curve r ->
  secp_add (secp_add p q) r = secp_add p (secp_add q r).
Proof.
  apply (affine_add_assoc (Fid := Integral_domain_Zmod P P_prime)
           Zmod.inv Fp_eq_dec (Zmod.of_Z P B)
           Fp_inv_ok Fp_char_ok Fp_no_order2).
Qed.

Lemma secp_add_None_r (p : secp_point) : secp_add p None = p.
Proof. destruct p as [[u v]|]; reflexivity. Qed.

Lemma secp_mul_on_curve (n : nat) (p : secp_point) :
  secp_on_curve p -> secp_on_curve (secp_mul n p).
Proof.
  apply (affine_mul_on_curve (Fid := Integral_domain_Zmod P P_prime)
           Zmod.inv Fp_eq_dec (Zmod.of_Z P B)
           Fp_inv_ok Fp_char_ok Fp_no_order2).
Qed.

Lemma secp_mul_None (n : nat) : secp_mul n None = None.
Proof. apply affine_mul_None. Qed.

Lemma secp_mul_add (m n : nat) (p : secp_point) :
  secp_on_curve p ->
  secp_mul (m + n) p = secp_add (secp_mul m p) (secp_mul n p).
Proof.
  apply (affine_mul_add (Fid := Integral_domain_Zmod P P_prime)
           Zmod.inv Fp_eq_dec (Zmod.of_Z P B)
           Fp_inv_ok Fp_char_ok Fp_no_order2).
Qed.

Lemma secp_mul_mul (m n : nat) (p : secp_point) :
  secp_on_curve p -> secp_mul (m * n) p = secp_mul m (secp_mul n p).
Proof.
  apply (affine_mul_mul (Fid := Integral_domain_Zmod P P_prime)
           Zmod.inv Fp_eq_dec (Zmod.of_Z P B)
           Fp_inv_ok Fp_char_ok Fp_no_order2).
Qed.

Lemma secp_mul_order (n m : nat) (p : secp_point) :
  secp_on_curve p -> secp_mul n p = None ->
  secp_mul m p = secp_mul (m mod n) p.
Proof.
  apply (affine_mul_order (Fid := Integral_domain_Zmod P P_prime)
           Zmod.inv Fp_eq_dec (Zmod.of_Z P B)
           Fp_inv_ok Fp_char_ok Fp_no_order2).
Qed.

Lemma secp_add_None_abscissa (u1 v1 u2 v2 : Zmod P) :
  secp_add (Some (u1, v1)) (Some (u2, v2)) = None -> u1 = u2.
Proof. apply affine_add_None_abscissa. Qed.

(** ** [Point.__add__] computes the group law *)

Lemma fe_sub_S256 n m :
  fe_sub (mkFE n P) (mkFE m P) = Ok (mkFE ((n - m) mod P) P).
Proof.
  pose proof P_pos. unfold fe_sub, same_prime. cbn [prime number].
  rewrite Z.eqb_refl. apply FieldElement_init_Ok.
  apply Z.mod_pos_bound. lia.
Qed.

Lemma fe_rmul_S256 c n :
  fe_rmul c (mkFE n P) = Ok (mkFE ((n * c) mod P) P).
Proof.
  pose proof P_pos. unfold fe_rmul. cbn [prime number].
  apply FieldElement_init_Ok. apply Z.mod_pos_bound. lia.
Qed.

Lemma fe_div_S256 n m :
  fe_div (mkFE n P) (mkFE m P)
  = Ok (mkFE ((n * (m ^ (P - 2) mod P)) mod P) P).
Proof.
  pose proof P_pos. unfold fe_div, same_prime. cbn [prime number].
  rewrite Z.eqb_refl, pow3_spec by lia. apply FieldElement_init_Ok.
  apply Z.mod_pos_bound. lia.
Qed.

Lemma fe_eqb_S256 n m : fe_eqb (mkFE n P) (mkFE m P) = (n =? m).
Proof.
  unfold fe_eqb. cbn [prime number]. rewrite Z.eqb_refl. apply andb_true_r.
Qed.

Lemma to_Z_eqb (u v : Zmod P) :
  (Zmod.to_Z u =? Zmod.to_Z v) = if Fp_eq_dec u v then true else false.
Proof.
  destruct (Fp_eq_dec u v) as [->|Hn].
  - apply Z.eqb_refl.
  - apply Z.eqb_neq. intros E. apply Hn. apply Zmod.unsigned_inj. exact E.
Qed.

Lemma to_Z_eqb_0 (v : Zmod P) :
  (Zmod.to_Z v =? 0) = if Fp_eq_dec v Zmod.zero then true else false.
Proof. rewrite <- (Zmod.unsigned_0 P). apply to_Z_eqb. Qed.

Lemma of_Z_2 : Zmod.of_Z P 2 = Zmod.add Zmod.one Zmod.one.
Proof. rewrite <- Zmod.of_Z_1, <- Zmod.of_Z_add. reflexivity. Qed.

Lemma of_Z_3 :
  Zmod.of_Z P 3 = Zmod.add (Zmod.add Zmod.one Zmod.one) Zmod.one.
Proof. rewrite <- Zmod.of_Z_1, <- !Zmod.of_Z_add. reflexivity. Qed.

(** The modular power [x^(P-2)] of the division is the field inverse. *)
Lemma of_Z_fermat_inverse (d : Z) :
  Zmod.of_Z P d <> Zmod.zero ->
  Zmod.of_Z P (d ^ (P - 2) mod P) = Zmod.inv (Zmod.of_Z P d).
Proof.
  intros Hd. rewrite Zmod.of_Z_mod, Zmod.of_Z_pow by (vm_compute; discriminate).
  apply Zmod.fermat_inv; [exact Hd | exact P_prime].
Qed.

Lemma of_affine_mod (zx zy : Z) :
  S256_point_of (zx mod P) (zy mod P)
  = of_affine (Some (Zmod.of_Z P zx, Zmod.of_Z P zy)).
Proof. cbn [of_affine]. rewrite !Zmod.unsigned_of_Z. reflexivity. Qed.

Lemma to_Z_small (u : Zmod P) : 0 <= Zmod.to_Z u < P.
Proof. apply Zmod.unsigned_pos_bound. exact P_pos. Qed.

(** The constructor accepts the coordinates of a point of the curve. *)
Lemma Point_init_affine (u v : Zmod P) :
  secp_on_curve (Some (u, v)) ->
  Point_init (Some (mkFE (Zmod.to_Z u) P)) (Some (mkFE (Zmod.to_Z v) P))
    (mkFE A P) (mkFE B P)
  = Ok (of_affine (Some (u, v))).
Proof.
  intros H. rewrite Point_init_S256.
  replace (Zmod.to_Z v ^ 2 mod P =? (Zmod.to_Z u ^ 3 + 7) mod P) with true;
    [reflexivity|].
  symmetry. apply Z.eqb_eq.
  unfold secp_on_curve, affine_on_curve in H.
  apply (f_equal Zmod.to_Z) in H.
  change (Zmod.to_Z (Zmod.mul v v)
          = Zmod.to_Z (Zmod.add (Zmod.mul (Zmod.mul u u) u) (Zmod.of_Z P B)))
    in H.
  rewrite Zmod.unsigned_add, !Zmod.unsigned_mul, Zmod.unsigned_of_Z in H.
  pose proof P_pos.
  assert (HB : 0 <= B < P) by (unfold B; split; [lia | reflexivity]).
  rewrite (Z.mod_small B) in H by exact HB.
  rewrite Zmult_mod_idemp_l, Zplus_mod_idemp_l in H.
  rewrite Z.pow_2_r, H. f_equal. unfold B. ring.
Qed.

Lemma of_affine_a (p : secp_point) : a (of_affine p) = mkFE A P.
Proof. destruct p as [[u v]|]; reflexivity. Qed.

Lemma of_affine_b (p : secp_point) : b (of_affine p) = mkFE B P.
Proof. destruct p as [[u v]|]; reflexivity. Qed.

Lemma Point_init_mod (zx zy : Z) (u v : Zmod P) :
  Zmod.of_Z P zx = u -> Zmod.of_Z P zy = v ->
  secp_on_curve (Some (u, v)) ->
  Point_init (Some (mkFE (zx mod P) P)) (Some (mkFE (zy mod P) P))
    (mkFE A P) (mkFE B P)
  = Ok (of_affine (Some (u, v))).
Proof.
  intros <- <- H. rewrite <- !(Zmod.unsigned_of_Z (m:=P)).
  apply Point_init_affine. exact H.
Qed.

Lemma Point_init_infinity :
  Point_init None None (mkFE A P) (mkFE B P) = Ok infinity.
Proof. reflexivity. Qed.

Lemma double_nonzero (v : Zmod P) :
  v <> Zmod.zero -> Zmod.mul (Zmod.add Zmod.one Zmod.one) v <> Zmod.zero.
Proof.
  intros Hv E. apply (Zmod.mul_0_iff_prime P_prime) in E.
  destruct E as [E|E]; [|contradiction].
  rewrite <- of_Z_2 in E. revert E. apply of_Z_small_nonzero.
  split; [reflexivity | reflexivity].
Qed.

Lemma difference_nonzero (u1 u2 : Zmod P) :
  u1 <> u2 -> Zmod.sub u2 u1 <> Zmod.zero.
Proof. intros H E. apply H. symmetry. apply Zmod.sub_eq_0. exact E. Qed.

(** The ring notations of the group law are the operations of [Zmod m]. *)
Section ZmodOps.
Import Stdlib.setoid_ring.Algebra_syntax Stdlib.setoid_ring.Ncring.
Local Close Scope Z_scope.

Lemma Zmod_add_eq (m : Z) (u v : Zmod m) : u + v = Zmod.add u v.
Proof. reflexivity. Qed.

Lemma Zmod_mul_eq (m : Z) (u v : Zmod m) : u * v = Zmod.mul u v.
Proof. reflexivity. Qed.

Lemma Zmod_sub_eq (m : Z) (u v : Zmod m) : u - v = Zmod.sub u v.
Proof. reflexivity. Qed.

Lemma Zmod_one_eq (m : Z) : (1 : Zmod m) = Zmod.one.
Proof. reflexivity. Qed.

Lemma Zmod_zero_eq (m : Z) : (0 : Zmod m) = Zmod.zero.
Proof. reflexivity. Qed.

End ZmodOps.

(** Rewrites the ring notations into the operations of [Zmod m]. *)
Ltac field_ops :=
  repeat first [ rewrite Zmod_add_eq | rewrite Zmod_mul_eq | rewrite Zmod_sub_eq
               | rewrite Zmod_one_eq | rewrite Zmod_zero_eq ].

Ltac field_ops_in H :=
  repeat first [ rewrite Zmod_add_eq in H | rewrite Zmod_mul_eq in H
               | rewrite Zmod_sub_eq in H
               | rewrite Zmod_one_eq in H | rewrite Zmod_zero_eq in H ].

(** Runs the field operations of a coordinate formula. *)
Ltac run_field_ops :=
  repeat (first [ rewrite fe_pow_S256 by lia
                | rewrite fe_rmul_S256
                | rewrite fe_add_S256
                | rewrite fe_sub_S256
                | rewrite fe_mul_S256
                | rewrite fe_div_S256 ];
          cbn [bind]).

Ltac push_of_Z :=
  repeat first
    [ rewrite Zmod.of_Z_mod
    | rewrite Zmod.of_Z_sub
    | rewrite Zmod.of_Z_add
    | rewrite Zmod.of_Z_mul
    | rewrite Zmod.of_Z_unsigned
    | rewrite Zmod.of_Z_pow by lia
    | rewrite Zmod.pow_2_r ].

(** [Point.__add__] on two points of secp256k1 never raises and returns the
    sum of the group law. *)
Lemma Point_add_affine (p q : secp_point) :
  secp_on_curve p -> secp_on_curve q ->
  Point_add (of_affine p) (of_affine q) = Ok (of_affine (secp_add p q)).
Proof.
  intros Hp Hq. pose proof (secp_add_on_curve p q Hp Hq) as Hs.
  pose proof P_prime as Hprime. pose proof P_minus_1_big as Hbig.
  unfold Point_add. rewrite !of_affine_a, !of_affine_b, !fe_eqb_S256.
  rewrite !Z.eqb_refl. cbn [andb negb].
  destruct p as [[u1 v1]|]; [|reflexivity].
  destruct q as [[u2 v2]|]; [|reflexivity].
  cbn [of_affine]. unfold point_eqb, opt_fe_eqb, S256_point_of.
  cbn [x y a b number].
  rewrite !fe_eqb_S256, !Z.eqb_refl, !andb_true_r.
  rewrite !to_Z_eqb, to_Z_eqb_0.
  unfold secp_add, affine_add in Hs |- *. field_ops_in Hs. field_ops.
  destruct (Fp_eq_dec u1 u2) as [Eu|Eu].
  - destruct (Fp_eq_dec v1 v2) as [Ev|Ev]; cbn [andb negb];
      [|exact Point_init_infinity].
    destruct (Fp_eq_dec v1 Zmod.zero) as [E0|E0];
      [exact Point_init_infinity|].
    subst u2 v2. cbv zeta in Hs |- *.
    run_field_ops.
    pose proof (tangent_as_computed (Fid := Integral_domain_Zmod P P_prime)
                  u1 v1 (Zmod.inv (Zmod.mul (Zmod.add Zmod.one Zmod.one) v1)))
      as [Hx Hy].
    field_ops_in Hx. field_ops_in Hy.
    apply Point_init_mod; [| |exact Hs];
      push_of_Z; rewrite ?of_Z_2, ?of_Z_3; unfold A;
      rewrite ?Zmod.of_Z_0;
      rewrite !(Zmod.mul_comm v1 (Zmod.add Zmod.one Zmod.one));
      rewrite !Zmod.fermat_inv
        by (first [apply double_nonzero; exact E0 | exact Hprime]);
      [exact Hx | exact Hy].
  - cbn [andb negb]. cbv zeta in Hs |- *.
    run_field_ops.
    apply Point_init_mod; [| |exact Hs];
      push_of_Z;
      rewrite !Zmod.fermat_inv
        by (first [apply difference_nonzero; exact Eu | exact Hprime]);
      reflexivity.
Qed.

(** ** [Point.__rmul__] computes scalar multiples *)

Lemma secp_mul_double (p : secp_point) : secp_mul 2 p = secp_add p p.
Proof. apply affine_mul_double. Qed.

Lemma secp_mul_1 (p : secp_point) : secp_mul 1 p = p.
Proof. unfold secp_mul. cbn [affine_mul]. apply affine_add_None_r. Qed.

Lemma secp_mul_S (n : nat) (p : secp_point) :
  secp_mul (S n) p = secp_add p (secp_mul n p).
Proof. reflexivity. Qed.

Lemma rmul_loop_affine (c : positive) (cur acc : secp_point) :
  secp_on_curve cur -> secp_on_curve acc ->
  rmul_loop c (of_affine cur) (of_affine acc)
  = Ok (of_affine (secp_add acc (secp_mul (Pos.to_nat c) cur))).
Proof.
  revert cur acc.
  induction c as [c IH|c IH|]; intros cur acc Hcur Hacc; cbn [rmul_loop].
  - rewrite (Point_add_affine acc cur Hacc Hcur). cbn [bind].
    rewrite (Point_add_affine cur cur Hcur Hcur). cbn [bind].
    rewrite IH by (apply secp_add_on_curve; assumption).
    do 2 f_equal.
    rewrite Pos2Nat.inj_xI, secp_mul_S, (Nat.mul_comm 2).
    rewrite secp_mul_mul, secp_mul_double by exact Hcur.
    apply secp_add_assoc; auto using secp_mul_on_curve, secp_add_on_curve.
  - rewrite (Point_add_affine cur cur Hcur Hcur). cbn [bind].
    rewrite IH by (try apply secp_add_on_curve; assumption).
    do 2 f_equal.
    rewrite Pos2Nat.inj_xO, (Nat.mul_comm 2).
    rewrite secp_mul_mul, secp_mul_double by exact Hcur.
    reflexivity.
  - rewrite (Point_add_affine acc cur Hacc Hcur). cbn [bind].
    rewrite (Point_add_affine cur cur Hcur Hcur). cbn [bind].
    change (Pos.to_nat 1) with 1%nat. rewrite secp_mul_1. reflexivity.
Qed.

Lemma Point_rmul_affine (n : BinNums.N) (p : secp_point) :
  secp_on_curve p ->
  Point_rmul n (of_affine p) = Ok (of_affine (secp_mul (N.to_nat n) p)).
Proof.
  intros Hp. unfold Point_rmul.
  rewrite of_affine_a, of_affine_b, Point_init_infinity. cbn [bind].
  destruct n as [|c]; [reflexivity|].
  change infinity with (of_affine None).
  rewrite rmul_loop_affine by (exact Hp || exact I).
  reflexivity.
Qed.

(** [S256Point.__rmul__] on a point of the curve never raises and returns
    the multiple by the coefficient reduced modulo [N]. *)
Lemma S256Point_rmul_affine (k : Z) (p : secp_point) :
  secp_on_curve p ->
  S256Point_rmul k (of_affine p)
  = Ok (of_affine (secp_mul (Z.to_nat (k mod N)) p)).
Proof.
  intros Hp. unfold S256Point_rmul. rewrite Point_rmul_affine by exact Hp.
  rewrite Z_N_nat. reflexivity.
Qed.

(** ** The order of the generator *)

Lemma bP_spec : BigN.to_Z bP = P.
Proof. unfold bP. rewrite BigN.spec_of_N, Z2N.id; [reflexivity|]. discriminate. Qed.

Lemma bsub_spec (u v : bigN) :
  BigN.to_Z v < P ->
  to_Fp (bsub u v) = Zmod.sub (to_Fp u) (to_Fp v)
  /\ BigN.to_Z (bsub u v) < P.
Proof.
  intros Hv. pose proof P_pos as HP.
  pose proof (BigN.spec_pos u) as Hu0. pose proof (BigN.spec_pos v) as Hv0.
  unfold to_Fp, bsub.
  rewrite BigN.spec_modulo, BigN.spec_sub, BigN.spec_add, bP_spec.
  rewrite Z.max_r by lia. split.
  - rewrite Zmod.of_Z_mod, <- Zmod.of_Z_sub. apply Zmod.of_Z_inj.
    replace (BigN.to_Z u + P - BigN.to_Z v)
      with (BigN.to_Z u - BigN.to_Z v + 1 * P) by ring.
    apply Z.mod_add. lia.
  - apply Z.mod_pos_bound. lia.
Qed.

Lemma bmulm_spec (u v : bigN) :
  to_Fp (bmulm u v) = Zmod.mul (to_Fp u) (to_Fp v)
  /\ BigN.to_Z (bmulm u v) < P.
Proof.
  pose proof P_pos as HP. unfold to_Fp, bmulm.
  rewrite BigN.spec_modulo, BigN.spec_mul, bP_spec. split.
  - rewrite Zmod.of_Z_mod. apply Zmod.of_Z_mul.
  - apply Z.mod_pos_bound. lia.
Qed.

Lemma binv_spec (u : bigN) :
  to_Fp u <> Zmod.zero ->
  to_Fp (binv u) = Zmod.inv (to_Fp u).
Proof.
  intros Hu. pose proof P_pos as HP.
  assert (H2 : 0 < P - 2) by reflexivity.
  unfold to_Fp in *. unfold binv.
  rewrite bpow_pos_spec, bP_spec.
  rewrite Zpow_mod_pos_correct by lia.
  assert (E : forall a p, Z.pow_pos a p = a ^ Z.pos p) by reflexivity.
  rewrite E, Z2Pos.id by exact H2.
  rewrite Zmod.of_Z_mod, Zmod.of_Z_pow by lia.
  apply Zmod.fermat_inv; [exact Hu | exact P_prime].
Qed.

Lemma to_Fp_small (c : Z) :
  0 <= c -> to_Fp (BigN.of_N (Z.to_N c)) = Zmod.of_Z P c.
Proof.
  intros Hc. unfold to_Fp. rewrite BigN.spec_of_N, Z2N.id by exact Hc.
  reflexivity.
Qed.

Lemma to_Fp_inj (u v : bigN) :
  BigN.to_Z u < P -> BigN.to_Z v < P ->
  to_Fp u = to_Fp v -> BigN.to_Z u = BigN.to_Z v.
Proof.
  intros Hu Hv E. unfold to_Fp in E. apply Zmod.of_Z_inj in E.
  pose proof (BigN.spec_pos u). pose proof (BigN.spec_pos v).
  rewrite !Z.mod_small in E by lia. exact E.
Qed.

Lemma to_Fp_eqb (u v : bigN) :
  BigN.to_Z u < P -> BigN.to_Z v < P ->
  BigN.eqb u v = if Fp_eq_dec (to_Fp u) (to_Fp v) then true else false.
Proof.
  intros Hu Hv. rewrite BigN.spec_eqb.
  destruct (Fp_eq_dec (to_Fp u) (to_Fp v)) as [E|E].
  - apply Z.eqb_eq. apply to_Fp_inj; assumption.
  - apply Z.eqb_neq. intros E'. apply E. unfold to_Fp. rewrite E'.
    reflexivity.
Qed.

Lemma to_Fp_zero : to_Fp BigN.zero = Zmod.zero.
Proof. unfold to_Fp. rewrite BigN.spec_0. apply Zmod.of_Z_0. Qed.
Ltac reduced :=
  first [ assumption | apply bmulm_spec | apply bsub_spec; reduced ].

(** Pushes [to_Fp] through the operations of a coordinate formula; [Hd]
    says that the denominator is not zero. *)
Ltac rewrite_to_Fp Hd :=
  repeat match goal with
         | |- context [to_Fp (binv ?u)] => rewrite (binv_spec u Hd)
         | |- context [to_Fp (bmulm ?u ?v)] =>
             rewrite (proj1 (bmulm_spec u v))
         | |- context [to_Fp (bsub ?u ?v)] =>
             let Hv := fresh "Hv" in
             assert (Hv : BigN.to_Z v < P) by reduced;
             rewrite (proj1 (bsub_spec u v Hv)); clear Hv
         end.

Lemma bpoint_add_spec (p q : bpoint) :
  bpoint_reduced p -> bpoint_reduced q ->
  to_secp (bpoint_add p q) = secp_add (to_secp p) (to_secp q)
  /\ bpoint_reduced (bpoint_add p q).
Proof.
  intros Hp Hq.
  destruct p as [[x1 y1]|]; [|split; [reflexivity | exact Hq]].
  destruct q as [[x2 y2]|]; [|split; [reflexivity | exact Hp]].
  destruct Hp as [Hx1 Hy1]. destruct Hq as [Hx2 Hy2].
  assert (H0 : BigN.to_Z BigN.zero < P)
    by (rewrite BigN.spec_0; exact P_pos).
  unfold bpoint_add, secp_add, affine_add. cbn [to_secp].
  rewrite (to_Fp_eqb x1 x2), (to_Fp_eqb y1 y2), (to_Fp_eqb y1 BigN.zero)
    by assumption.
  rewrite to_Fp_zero. field_ops.
  destruct (Fp_eq_dec (to_Fp x1) (to_Fp x2)) as [Ex|Ex].
  - destruct (Fp_eq_dec (to_Fp y1) (to_Fp y2)) as [Ey|Ey];
      [|split; [reflexivity | exact I]].
    destruct (Fp_eq_dec (to_Fp y1) Zmod.zero) as [E0|E0];
      [split; [reflexivity | exact I]|].
    cbv zeta. cbn [to_secp bpoint_reduced].
    assert (Hd : to_Fp (bmulm (BigN.of_N 2) y1) <> Zmod.zero).
    { rewrite (proj1 (bmulm_spec _ _)).
      change (BigN.of_N 2) with (BigN.of_N (Z.to_N 2)).
      rewrite to_Fp_small, of_Z_2 by lia.
      apply double_nonzero. exact E0. }
    split.
    + rewrite_to_Fp Hd.
      change (BigN.of_N 2) with (BigN.of_N (Z.to_N 2)).
      change (BigN.of_N 3) with (BigN.of_N (Z.to_N 3)).
      rewrite !to_Fp_small, of_Z_2, of_Z_3 by lia.
      reflexivity.
    + split; apply bsub_spec; reduced.
  - cbv zeta. cbn [to_secp bpoint_reduced].
    assert (Hd : to_Fp (bsub x2 x1) <> Zmod.zero).
    { rewrite (proj1 (bsub_spec _ _ Hx1)).
      apply difference_nonzero. exact Ex. }
    split.
    + rewrite_to_Fp Hd.
      reflexivity.
    + split; apply bsub_spec; reduced.
Qed.

Lemma bpoint_mul_spec (n : positive) (p : bpoint) :
  bpoint_reduced p -> secp_on_curve (to_secp p) ->
  to_secp (bpoint_mul n p) = secp_mul (Pos.to_nat n) (to_secp p)
  /\ bpoint_reduced (bpoint_mul n p).
Proof.
  intros Hp Hc.
  induction n as [n [IH1 IH2]|n [IH1 IH2]|]; cbn [bpoint_mul]; cbv zeta.
  - destruct (bpoint_add_spec _ _ IH2 IH2) as [E1 R1].
    destruct (bpoint_add_spec _ _ Hp R1) as [E2 R2].
    split; [|exact R2].
    rewrite E2, E1, IH1, <- secp_mul_add by exact Hc.
    rewrite Pos2Nat.inj_xI, secp_mul_S. do 2 f_equal. lia.
  - destruct (bpoint_add_spec _ _ IH2 IH2) as [E1 R1].
    split; [|exact R1].
    rewrite E1, IH1, <- secp_mul_add by exact Hc.
    rewrite Pos2Nat.inj_xO. f_equal. lia.
  - split; [|exact Hp]. change (Pos.to_nat 1) with 1%nat.
    rewrite secp_mul_1. reflexivity.
Qed.

Lemma G_on_curve : secp_on_curve G_affine.
Proof.
  unfold secp_on_curve, G_affine, affine_on_curve. field_ops.
  rewrite <- !Zmod.of_Z_mul, <- Zmod.of_Z_add.
  apply Zmod.of_Z_inj. vm_compute. reflexivity.
Qed.

Lemma of_affine_G : of_affine G_affine = G.
Proof.
  unfold G_affine, of_affine. rewrite !Zmod.unsigned_of_Z.
  rewrite !Z.mod_small by (split; [discriminate | reflexivity]).
  reflexivity.
Qed.

Lemma bpoint_mul_order : bpoint_mul (Z.to_pos N) bG = None.
Proof. vm_compute. reflexivity. Qed.

(** [N * G] is the point at infinity. *)
Lemma G_order : secp_mul (Z.to_nat N) G_affine = None.
Proof.
  assert (HG : to_secp bG = G_affine).
  { unfold bG, G_affine. cbn [to_secp].
    rewrite !to_Fp_small by discriminate. reflexivity. }
  assert (HR : bpoint_reduced bG).
  { unfold bG. cbn [bpoint_reduced].
    rewrite !BigN.spec_of_N, !Z2N.id by discriminate.
    split; reflexivity. }
  assert (HC : secp_on_curve (to_secp bG))
    by (rewrite HG; exact G_on_curve).
  destruct (bpoint_mul_spec (Z.to_pos N) bG HR HC) as [E _].
  rewrite bpoint_mul_order, HG in E. cbn [to_secp] in E.
  assert (Hpos : forall z, 0 < z -> Z.to_nat z = Pos.to_nat (Z.to_pos z)).
  { intros [|q|q] Hz; [lia | reflexivity | lia]. }
  rewrite (Hpos N) by reflexivity. symmetry. exact E.
Qed.

Lemma N_nat_pos : (0 < Z.to_nat N)%nat.
Proof. assert (0 < N) by reflexivity. lia. Qed.

(** Multiples of [G] only depend on the scalar modulo [N]. *)
Lemma G_mul_mod (k : Z) :
  0 <= k ->
  secp_mul (Z.to_nat k) G_affine = secp_mul (Z.to_nat (k mod N)) G_affine.
Proof.
  intros Hk. assert (HN : 0 < N) by reflexivity.
  rewrite (secp_mul_order (Z.to_nat N) (Z.to_nat k) G_affine
             G_on_curve G_order).
  f_equal. rewrite <- Z2Nat.inj_mod; lia.
Qed.

(** ** ECDSA: signing then verifying *)

Section ScalarAlgebra.
Import Stdlib.setoid_ring.Algebra_syntax Stdlib.setoid_ring.Ncring.
Import Stdlib.setoid_ring.Cring Stdlib.setoid_ring.Integral_domain.
Local Close Scope Z_scope.
Context {F : Type} `{Fid : Integral_domain F (ring_eq := @eq F)}.

(** The scalar that [verify] recomputes: with [s = (z + r*d) / k], the
    combination [z/s + (r/s)*d] is [k]; with the opposite [s] it is [-k]. *)
Lemma verify_scalar (z r d k ki s si : F) :
  k * ki = 1 -> s * si = 1 -> s = (z + r * d) * ki ->
  z * si + r * si * d = k.
Proof. intros H1 H2 H3. nsatz. Qed.

Lemma verify_scalar_opposite (z r d k ki s si : F) :
  k * ki = 1 -> s * si = 1 -> s = 0 - (z + r * d) * ki ->
  z * si + r * si * d = 0 - k.
Proof. intros H1 H2 H3. nsatz. Qed.

End ScalarAlgebra.

Lemma N_pos : 0 < N.
Proof. reflexivity. Qed.

Lemma N_big : 2 < N.
Proof. reflexivity. Qed.

(** [pow(a, N - 2, N)] is the inverse of [a] modulo [N]. *)
Lemma inverse_mod_N (a : Z) :
  a mod N <> 0 ->
  Zmod.mul (Zmod.of_Z N a) (Zmod.of_Z N (pow3 a (N - 2) N)) = Zmod.one.
Proof.
  intros Ha. pose proof N_big as HN.
  rewrite pow3_spec by lia.
  rewrite Zmod.of_Z_mod, Zmod.of_Z_pow by lia.
  assert (Hnz : Zmod.of_Z N a <> Zmod.zero) by (apply Zmod.of_Z_nz; exact Ha).
  rewrite Zmod.fermat_inv by (exact Hnz || exact N_prime).
  apply Zmod.mul_inv_same_r_prime; [exact N_prime | exact Hnz].
Qed.

Lemma of_Z_N_self : Zmod.of_Z N N = Zmod.zero.
Proof.
  rewrite <- Zmod.of_Z_0. apply Zmod.of_Z_inj.
  rewrite Z.mod_same by (pose proof N_pos; lia). reflexivity.
Qed.

Lemma verify_scalar_Z (z rv d k s : Z) :
  0 < k < N -> s mod N <> 0 ->
  s = ((z + rv * d) * pow3 k (N - 2) N) mod N ->
  ((z * pow3 s (N - 2) N) mod N
   + (rv * pow3 s (N - 2) N) mod N * (d mod N)) mod N = k.
Proof.
  intros Hk Hs Es. pose proof N_pos as HN.
  rewrite <- (Z.mod_small k N) by lia.
  apply Zmod.of_Z_inj. push_of_Z.
  pose proof (verify_scalar (Fid := Integral_domain_Zmod N N_prime)
                (Zmod.of_Z N z) (Zmod.of_Z N rv) (Zmod.of_Z N d)
                (Zmod.of_Z N k) (Zmod.of_Z N (pow3 k (N - 2) N))
                (Zmod.of_Z N s) (Zmod.of_Z N (pow3 s (N - 2) N))) as A.
  field_ops_in A. apply A.
  - apply inverse_mod_N. rewrite Z.mod_small; lia.
  - apply inverse_mod_N. exact Hs.
  - rewrite Es at 1. push_of_Z. reflexivity.
Qed.

Lemma verify_scalar_opposite_Z (z rv d k s : Z) :
  0 < k < N -> s mod N <> 0 ->
  s = N - ((z + rv * d) * pow3 k (N - 2) N) mod N ->
  ((z * pow3 s (N - 2) N) mod N
   + (rv * pow3 s (N - 2) N) mod N * (d mod N)) mod N = N - k.
Proof.
  intros Hk Hs Es. pose proof N_pos as HN.
  rewrite <- (Z.mod_small (N - k) N) by lia.
  apply Zmod.of_Z_inj. push_of_Z. rewrite of_Z_N_self.
  pose proof (verify_scalar_opposite (Fid := Integral_domain_Zmod N N_prime)
                (Zmod.of_Z N z) (Zmod.of_Z N rv) (Zmod.of_Z N d)
                (Zmod.of_Z N k) (Zmod.of_Z N (pow3 k (N - 2) N))
                (Zmod.of_Z N s) (Zmod.of_Z N (pow3 s (N - 2) N))) as A.
  field_ops_in A. apply A.
  - apply inverse_mod_N. rewrite Z.mod_small; lia.
  - apply inverse_mod_N. exact Hs.
  - rewrite Es at 1. push_of_Z. rewrite of_Z_N_self. reflexivity.
Qed.

Lemma nonce_loop_range (fuel : nat) (hk hv : bytes) (k : Z) :
  nonce_loop fuel hk hv = Ok k -> 1 <= k < N.
Proof.
  revert hk hv. induction fuel as [|fuel IH]; intros hk hv H;
    [discriminate|].
  cbn [nonce_loop] in H. cbv zeta in H.
  destruct ((1 <=? from_bytes (SHA256.hmac_sha256 hk hv))
            && (from_bytes (SHA256.hmac_sha256 hk hv) <? N)) eqn:E.
  - injection H as <-. apply andb_prop in E as [E1 E2].
    apply Z.leb_le in E1. apply Z.ltb_lt in E2. lia.
  - apply IH in H. exact H.
Qed.

(** The nonce is a scalar in [[1, N)]. *)
Lemma deterministic_k_range (fuel : nat) (self : PrivateKey) (z k : Z) :
  deterministic_k fuel self z = Ok k -> 1 <= k < N.
Proof.
  unfold deterministic_k, nonce_rounds. intros H.
  destruct (to_bytes 32 (reduce_once z)) as [zb| |]; try discriminate.
  cbn [bind] in H.
  destruct (to_bytes 32 (secret self)) as [sb| |]; try discriminate.
  cbn [bind] in H. cbv zeta in H.
  apply nonce_loop_range in H. exact H.
Qed.

Lemma G_affine_finite : G_affine <> None.
Proof. discriminate. Qed.

(** A scalar in [(0, N)] does not send [G] to infinity. *)
Lemma G_mul_nonzero (k : Z) :
  0 < k < N -> secp_mul (Z.to_nat k) G_affine <> None.
Proof.
  intros Hk E. pose proof N_pos as HN.
  set (ki := pow3 k (N - 2) N).
  assert (Hki : 0 <= ki).
  { unfold ki. rewrite pow3_spec by lia. apply Z.mod_pos_bound. lia. }
  assert (H1 : (ki * k) mod N = 1).
  { pose proof (inverse_mod_N k) as H.
    rewrite Z.mod_small in H by lia. specialize (H ltac:(lia)).
    fold ki in H. rewrite <- Zmod.of_Z_mul, <- Zmod.of_Z_1 in H.
    apply Zmod.of_Z_inj in H. rewrite (Z.mul_comm ki).
    rewrite H. apply Z.mod_small. pose proof N_big. lia. }
  apply G_affine_finite.
  rewrite <- (secp_mul_1 G_affine).
  change 1%nat with (Z.to_nat 1). rewrite <- H1.
  rewrite <- G_mul_mod by lia.
  rewrite Z2Nat.inj_mul by lia.
  rewrite secp_mul_mul by exact G_on_curve.
  rewrite E. apply secp_mul_None.
Qed.

(** The public key of [PrivateKey(secret)] is the multiple of [G] by the
    secret reduced modulo [N]; the constructor never raises. *)
Lemma PrivateKey_init_affine (d : Z) :
  PrivateKey_init d
  = Ok (mkPrivateKey d
          (of_affine (secp_mul (Z.to_nat (d mod N)) G_affine))).
Proof.
  unfold PrivateKey_init. rewrite <- of_affine_G.
  rewrite S256Point_rmul_affine by exact G_on_curve. reflexivity.
Qed.

Lemma x_number_affine (u v : Zmod P) :
  x_number (of_affine (Some (u, v))) = Ok (Zmod.to_Z u).
Proof. reflexivity. Qed.

Lemma x_number_infinity : x_number (of_affine None) = Raise AttributeError.
Proof. reflexivity. Qed.

(** What [verify] computes on the key [d*G]: the abscissa of the multiple of
    [G] by [u + v*d] modulo [N]. *)
Lemma verify_affine (d z rv sv : Z) :
  let si := pow3 sv (N - 2) N in
  let w := ((z * si) mod N + (rv * si) mod N * (d mod N)) mod N in
  verify (of_affine (secp_mul (Z.to_nat (d mod N)) G_affine)) z
    (mkSignature rv sv)
  = (tx <- x_number (of_affine (secp_mul (Z.to_nat w) G_affine)) ;;
     Ok (tx =? rv)).
Proof.
  cbv zeta. pose proof N_pos as HN. pose proof G_on_curve as HG.
  unfold verify. cbn [r s]. cbv zeta.
  set (si := pow3 sv (N - 2) N).
  set (u := (z * si) mod N). set (v := (rv * si) mod N).
  assert (Hu : 0 <= u < N) by (apply Z.mod_pos_bound; lia).
  assert (Hv : 0 <= v < N) by (apply Z.mod_pos_bound; lia).
  assert (Hd : 0 <= d mod N < N) by (apply Z.mod_pos_bound; lia).
  rewrite <- of_affine_G at 1.
  rewrite S256Point_rmul_affine by exact HG. cbn [bind].
  rewrite S256Point_rmul_affine by (apply secp_mul_on_curve; exact HG).
  cbn [bind].
  rewrite Point_add_affine by (repeat apply secp_mul_on_curve; exact HG).
  cbn [bind].
  rewrite !(Z.mod_small _ N) by assumption.
  rewrite <- secp_mul_mul, <- secp_mul_add by exact HG.
  rewrite <- Z2Nat.inj_mul, <- Z2Nat.inj_add by lia.
  rewrite G_mul_mod by lia.
  reflexivity.
Qed.

Lemma two_255_lt_N : 2 ^ 255 < N.
Proof. reflexivity. Qed.

(** ** PrivateKey.sign followed by S256Point.verify *)

(** Signing with a nonce that the derivation returned, then verifying with
    the public key of the same secret. *)
Lemma sign_verify_from_nonce
  (fuel : nat) (d z k : Z) (pk : PrivateKey) :
  PrivateKey_init d = Ok pk ->
  deterministic_k fuel pk z = Ok k ->
  exists sig : Signature,
    sign fuel pk z = Ok sig
    /\ verify (point pk) z sig
       = if s sig =? 0 then Raise AttributeError else Ok true.
Proof.
  intros Hpk Hk. rewrite PrivateKey_init_affine in Hpk.
  injection Hpk as <-.
  pose proof (deterministic_k_range _ _ _ _ Hk) as Hr.
  pose proof N_pos as HN. pose proof two_255_lt_N as H255.
  pose proof G_on_curve as HG.
  unfold sign. rewrite Hk. cbn [bind].
  rewrite <- of_affine_G.
  rewrite S256Point_rmul_affine by exact HG. cbn [bind].
  rewrite (Z.mod_small k N) by lia.
  destruct (secp_mul (Z.to_nat k) G_affine) as [[xr yr]|] eqn:ER;
    [|exfalso; revert ER; apply G_mul_nonzero; lia].
  rewrite x_number_affine. cbn [bind secret]. cbv zeta.
  set (rv := Zmod.to_Z xr).
  set (sv := ((z + rv * d) * pow3 k (N - 2) N) mod N).
  assert (Hsv : 0 <= sv < N) by (apply Z.mod_pos_bound; lia).
  eexists. split; [reflexivity|]. cbn [s point].
  rewrite low_s_threshold, verify_affine. cbv zeta.
  destruct (sv >? 2 ^ 255) eqn:Eh.
  - assert (Hs : 0 < N - sv < N) by lia.
    destruct (Z.eqb_spec (N - sv) 0) as [E0|_]; [lia|].
    rewrite (verify_scalar_opposite_Z z rv d k (N - sv))
      by (rewrite ?Z.mod_small by lia; first [lia | reflexivity]).
    destruct (secp_mul (Z.to_nat (N - k)) G_affine) as [[xt yt]|] eqn:ET;
      [|exfalso; revert ET; apply G_mul_nonzero; lia].
    assert (Ex : xt = xr).
    { apply (secp_add_None_abscissa xt yt xr yr).
      rewrite <- ET, <- ER, <- secp_mul_add by exact HG.
      rewrite <- Z2Nat.inj_add by lia.
      replace (N - k + k) with N by ring. exact G_order. }
    rewrite x_number_affine, Ex. cbn [bind]. fold rv.
    rewrite Z.eqb_refl. reflexivity.
  - destruct (Z.eqb_spec sv 0) as [E0|E0].
    + rewrite E0, pow3_zero_base.
      assert (Ew : ((z * 0) mod N + (rv * 0) mod N * (d mod N)) mod N = 0).
      { rewrite !Z.mul_0_r, (Z.mod_0_l N) by lia.
        change (0 + 0 * (d mod N)) with 0. apply Z.mod_0_l. lia. }
      rewrite Ew. reflexivity.
    + rewrite (verify_scalar_Z z rv d k sv)
        by (rewrite ?Z.mod_small by lia; first [lia | reflexivity]).
      rewrite ER, x_number_affine. cbn [bind]. fold rv.
      rewrite Z.eqb_refl. reflexivity.
Qed.

(** A nonce found within [fuel] rounds of the rejection loop is the nonce
    found with any larger bound: the bound does not influence the result. *)
Lemma nonce_loop_mono (fuel fuel' : nat) (hk hv : bytes) (k : Z) :
  (fuel <= fuel')%nat ->
  nonce_loop fuel hk hv = Ok k -> nonce_loop fuel' hk hv = Ok k.
Proof.
  revert fuel' hk hv. induction fuel as [|fuel IH]; intros fuel' hk hv Hle H;
    [discriminate|].
  destruct fuel' as [|fuel']; [lia|].
  cbn [nonce_loop] in H |- *. cbv zeta in H |- *.
  destruct ((1 <=? from_bytes (SHA256.hmac_sha256 hk hv))
            && (from_bytes (SHA256.hmac_sha256 hk hv) <? N)).
  - exact H.
  - apply IH; [lia | exact H].
Qed.

Lemma deterministic_k_mono (fuel fuel' : nat) (self : PrivateKey) (z k : Z) :
  (fuel <= fuel')%nat ->
  deterministic_k fuel self z = Ok k -> deterministic_k fuel' self z = Ok k.
Proof.
  unfold deterministic_k, nonce_rounds. intros Hle H.
  destruct (to_bytes 32 (reduce_once z)) as [zb| |]; try discriminate.
  cbn [bind] in H |- *.
  destruct (to_bytes 32 (secret self)) as [sb| |]; try discriminate.
  cbn [bind] in H |- *. cbv zeta in H |- *.
  revert H. apply nonce_loop_mono. exact Hle.
Qed.

Lemma PrivateKey_init_1 : PrivateKey_init 1 = Ok (mkPrivateKey 1 G).
Proof.
  rewrite PrivateKey_init_affine.
  rewrite (Z.mod_small 1 N) by (split; [discriminate | reflexivity]).
  change (Z.to_nat 1) with 1%nat.
  rewrite secp_mul_1, of_affine_G. reflexivity.
Qed.



